(** * EventsApi: hook dispatch and callback registry of skyrim_platform

    A shallow embedding of [src/platform_se/skyrim_platform/EventsApi.cpp]:
    the wildcard [Pattern] parser, [Handler::Matches], the [Hook]
    Enter/Leave protocol with its per-thread scratch entries, and the
    [On]/[Once]/[SendEvent] callback registry.

    Conventions.
    - [std::string] is [string] (a list of bytes); [size_t] positions are
      [nat], [std::string::npos] is [None].
    - [double] is the kernel's binary64 [float]; a [uint32_t] converts to it
      exactly.
    - [std::unordered_map<DWORD, PerThread>] and [std::map<std::string, ...>]
      are [gmap]s, [std::set<DWORD>] is a [gset], [std::vector] is [list].
    - A C++ exception derived from [std::exception] is represented by its
      [what()] text. *)

From Stdlib Require Import ZArith NArith Floats Uint63 Ascii String.
From stdpp Require Import gmap strings list fin_maps.

Local Open Scope string_scope.
Local Open Scope list_scope.

(** ** Script values *)

(** The type tag of [JsValue::GetType], with the payload the code reads.
    Objects and functions are references. *)
Inductive JsValue :=
| JsUndefined
| JsNull
| JsBool (b : bool)
| JsNumber (d : float)
| JsString (s : string)
| JsObjectRef (id : N)
| JsFunctionRef (id : N).

Inductive JsType :=
| TyUndefined | TyNull | TyBoolean | TyNumber | TyString | TyObject
| TyFunction.

Definition GetType (v : JsValue) : JsType :=
  match v with
  | JsUndefined => TyUndefined
  | JsNull => TyNull
  | JsBool _ => TyBoolean
  | JsNumber _ => TyNumber
  | JsString _ => TyString
  | JsObjectRef _ => TyObject
  | JsFunctionRef _ => TyFunction
  end.

(** A call that may throw: the value, or the [what()] of the exception. *)
Inductive Result (A : Type) :=
| Ok (a : A)
| Throw (what : string).
Arguments Ok {A} a.
Arguments Throw {A} what.

(** ** std::string helpers used by the parser and the matcher *)

(** [std::count(str.begin(), str.end(), c)] *)
Fixpoint count (c : ascii) (str : string) : nat :=
  match str with
  | EmptyString => 0
  | String a rest => (if Ascii.eqb a c then 1 else 0) + count c rest
  end.

(** [str.find(c)]; [None] is [npos]. *)
Fixpoint find (c : ascii) (str : string) : option nat :=
  match str with
  | EmptyString => None
  | String a rest =>
      if Ascii.eqb a c then Some 0
      else match find c rest with
           | Some p => Some (S p)
           | None => None
           end
  end.

(** [memcmp(a, b, n)] over the first [n] bytes: [Eq] is the C result 0.
    Both buffers hold at least [n] bytes at every call site; a buffer that
    ends early compares as smaller. *)
Fixpoint memcmp (a b : string) (n : nat) : comparison :=
  match n with
  | 0 => Eq
  | S n' =>
      match a, b with
      | String x a', String y b' =>
          match N.compare (N_of_ascii x) (N_of_ascii y) with
          | Eq => memcmp a' b' n'
          | c => c
          end
      | EmptyString, EmptyString => Eq
      | EmptyString, String _ _ => Lt
      | String _ _, EmptyString => Gt
      end
  end.

(** [s.data() + k]: the buffer from byte [k] on. *)
Fixpoint advance (k : nat) (s : string) : string :=
  match k, s with
  | 0, _ => s
  | S k', String _ rest => advance k' rest
  | S _, EmptyString => EmptyString
  end.

Definition is_zero (c : comparison) : bool :=
  match c with Eq => true | _ => false end.

(** ** Pattern *)

Inductive PatternType := Exact | StartsWith | EndsWith.

Record Pattern := mkPattern { type : PatternType; str : string }.

Definition star : ascii := "*"%char.

Definition too_many_stars : string :=
  "Patterns can contain only one '*' at the beginning/end of string".
Definition misplaced_star : string :=
  "In patterns '*' must be at the beginning/end of string".

(** [Pattern::Parse].  When [count = 1] the string is not empty, so
    [str.size() - 1] does not wrap. *)
Definition Parse (s : string) : Result Pattern :=
  let n := count star s in
  if Nat.eqb n 0 then Ok (mkPattern Exact s)
  else if Nat.ltb 1 n then Throw too_many_stars
  else
    let pos := find star s in
    if bool_decide (pos = Some 0) then
      Ok (mkPattern EndsWith (substring 1 (String.length s - 1) s))
    else if bool_decide (pos = Some (String.length s - 1)) then
      Ok (mkPattern StartsWith (substring 0 (String.length s - 1) s))
    else Throw misplaced_star.

(** The [switch] of [Handler::Matches] on a present pattern. *)
Definition PatternMatches (p : Pattern) (eventName : string) : bool :=
  match type p with
  | Exact => String.eqb eventName (str p)
  | StartsWith =>
      Nat.leb (String.length (str p)) (String.length eventName) &&
      is_zero (memcmp eventName (str p) (String.length (str p)))
  | EndsWith =>
      Nat.leb (String.length (str p)) (String.length eventName) &&
      is_zero (memcmp
                 (advance (String.length eventName - String.length (str p))
                    eventName)
                 (str p) (String.length (str p)))
  end.

(** ** The script engine

    [JsValue::Call], the [std::string] conversion of a [JsValue] and the
    exception texts of the C++ runtime are declared outside this file; the
    engine is the interface through which the code below uses them.

    A handler callback acts on the context object it is given, on the
    storage map of that context and on the rest of the script world; the
    context and storage of one per-thread entry are not reachable from the
    callbacks of another.  A registry callback acts on the registry through
    [on] and [once].

    Not covered: a handler callback that calls the [add] function of a
    hook while a pass of that hook is running.  In the code this is a
    [push_back] on the vector that the range-for loop of [HandleEnter] or
    [HandleLeave] is iterating over, which C++ leaves undefined when the
    vector reallocates; the interface below gives a handler callback no
    access to the hooks, so the statements about a pass are statements about
    passes whose callbacks do not register handlers. *)

(** A script object as a property bag, and a script [Map]. *)
Record JsObject := mkJsObject {
  obj_id : N;
  props : gmap string JsValue
}.

Record JsMap := mkJsMap {
  map_id : N;
  entries : list (JsValue * JsValue)
}.

(** What a handler callback leaves behind when it returns or throws: the
    script world, the properties of the context object it was given, the
    entries of that context's storage map, and the exception if any. *)
Record JsCallResult (W : Type) := mkJsCallResult {
  r_world : W;
  r_props : gmap string JsValue;
  r_entries : list (JsValue * JsValue);
  r_thrown : option string
}.
Arguments mkJsCallResult {W} _ _ _ _.
Arguments r_world {W} _.
Arguments r_props {W} _.
Arguments r_entries {W} _.
Arguments r_thrown {W} _.

(** What a registry callback does to the registry while it runs: it calls
    [on] / [once], and may throw.  A failing [on] / [once] ends the callback
    with that exception. *)
Inductive Action :=
| ActOn (eventName : string) (callback : JsValue)
| ActOnce (eventName : string) (callback : JsValue)
| ActThrow (what : string).

Class ScriptEngine := {
  (** everything script code can reach besides its arguments *)
  World : Type;
  (** [callee.Call({ JsValue::Undefined(), context })] *)
  CallHandler :
    JsValue -> World -> gmap string JsValue -> list (JsValue * JsValue) ->
    JsCallResult World;
  (** [f.Call(arguments)] on a registry callback *)
  CallCallback : JsValue -> list JsValue -> World -> list Action * World;
  (** [static_cast<std::string>(JsValue)] *)
  to_std_string : JsValue -> Result string;
  to_std_string_JsString : forall s, to_std_string (JsString s) = Ok s;
  (** [what()] of the [std::out_of_range] of [unordered_map::at] *)
  out_of_range_what : string;
  (** [what()] of [InvalidArgumentException(name, value)] *)
  InvalidArgumentException_what : string -> string -> string
}.

(** ** Handler *)

(** "PerThread structure is unique for each thread".  A default-constructed
    [JsValue] is Undefined: [None]. *)
Record PerThread := mkPerThread {
  storage : option JsMap;
  context : option JsObject;
  matchesCondition : bool
}.

Definition PerThread_default : PerThread := mkPerThread None None false.

Record Handler := mkHandler {
  perThread : gmap N PerThread;
  (* Shared between threads *)
  enter : JsValue;
  leave : JsValue;
  pattern : option Pattern;
  minSelfId : option float;
  maxSelfId : option float
}.

(** [static_cast<double>(selfId)], also the implicit conversion in
    [selfId < minSelfId.value()]: exact for every [uint32_t]. *)
Definition double_of_uint32 (selfId : Z) : float :=
  PrimFloat.of_uint63 (Uint63.of_Z selfId).

(** [Handler::Matches] *)
Definition Matches (h : Handler) (selfId : Z) (eventName : string) : bool :=
  if match minSelfId h with
     | Some lo => PrimFloat.ltb (double_of_uint32 selfId) lo
     | None => false
     end
  then false
  else if match maxSelfId h with
          | Some hi => PrimFloat.ltb hi (double_of_uint32 selfId)
          | None => false
          end
  then false
  else match pattern h with
       | Some p => PatternMatches p eventName
       | None => true
       end.

(** [h.perThread[owningThread] = pt] *)
Definition setPerThread (h : Handler) (owningThread : N) (pt : PerThread)
  : Handler :=
  mkHandler (<[owningThread := pt]> (perThread h)) (enter h) (leave h)
    (pattern h) (minSelfId h) (maxSelfId h).

(** [h.perThread.erase(owningThread)] *)
Definition erasePerThread (h : Handler) (owningThread : N) : Handler :=
  mkHandler (delete owningThread (perThread h)) (enter h) (leave h)
    (pattern h) (minSelfId h) (maxSelfId h).

(** ** Hook *)

Record Hook := mkHook {
  hookName : string;
  eventNameVariableName : string;
  succeededVariableName : option string;
  inProgressThreads : gset N;
  handlers : list Handler
}.

Definition Hook_new (hookName_ eventNameVariableName_ : string)
  (succeededVariableName_ : option string) : Hook :=
  mkHook hookName_ eventNameVariableName_ succeededVariableName_ ∅ [].

Definition setHandlers (hk : Hook) (hs : list Handler) : Hook :=
  mkHook (hookName hk) (eventNameVariableName hk) (succeededVariableName hk)
    (inProgressThreads hk) hs.

Definition setInProgress (hk : Hook) (ts : gset N) : Hook :=
  mkHook (hookName hk) (eventNameVariableName hk) (succeededVariableName hk)
    ts (handlers hk).

(** [Hook::AddHandler] *)
Definition AddHandler (hk : Hook) (h : Handler) : Hook :=
  setHandlers hk (handlers hk ++ [h]).

(** The work items of [g_taskQueue]: the error report of [Enter] / [Leave]
    and the deferred [HandleEnter] of the papyrus hook. *)
Inductive Task :=
| TaskThrow (what : string)
| TaskHandleEnter (owningThread : N) (selfId : Z) (s : string).

Inductive Phase := OnEnter | OnLeave.

(** One [Call] of a handler callback, as the engine saw it; [W] is the
    type of script worlds. *)
Record CallEvent (W : Type) := mkCallEvent {
  ev_phase : Phase;
  ev_handler : nat;            (* position in [handlers] *)
  ev_thread : N;
  ev_props : gmap string JsValue;          (* the context at the call *)
  ev_entries : list (JsValue * JsValue);   (* its storage at the call *)
  ev_result : JsCallResult W
}.
Arguments mkCallEvent {W} _ _ _ _ _ _.
Arguments ev_phase {W} _.
Arguments ev_handler {W} _.
Arguments ev_thread {W} _.
Arguments ev_props {W} _.
Arguments ev_entries {W} _.
Arguments ev_result {W} _.

(** What lies outside the [Hook] object: the script world, the allocator of
    script objects, [g_taskQueue], the number of [g_pool.Push(f).wait()]
    round trips made, and the calls the engine received. *)
Record Env (W : Type) := mkEnv {
  world : W;
  nextObjectId : N;
  taskQueue : list Task;
  poolPushes : nat;
  callLog : list (CallEvent W)
}.
Arguments mkEnv {W} _ _ _ _ _.
Arguments world {W} _.
Arguments nextObjectId {W} _.
Arguments taskQueue {W} _.
Arguments poolPushes {W} _.
Arguments callLog {W} _.

(** ** The Enter / Leave protocol *)

Section HookProtocol.
Context {E : ScriptEngine}.

(** [g_taskQueue.AddTask(task)] *)
Definition AddTask (task : Task) (env : Env World) : Env World :=
  mkEnv (world env) (nextObjectId env) (taskQueue env ++ [task])
    (poolPushes env) (callLog env).

(** [g_pool.Push(f).wait()]: [f] runs to completion on the script thread
    while the caller waits; what [f] does is spelled out by the caller. *)
Definition PoolPush (env : Env World) : Env World :=
  mkEnv (world env) (nextObjectId env) (taskQueue env)
    (S (poolPushes env)) (callLog env).

(** The two script objects of a prepared entry. *)
Record Prepared := mkPrepared {
  p_context : JsObject;
  p_storage : JsMap
}.

Definition SetProperty (o : JsObject) (name : string) (v : JsValue)
  : JsObject :=
  mkJsObject (obj_id o) (<[name := v]> (props o)).

Definition GetProperty (o : JsObject) (name : string) : JsValue :=
  default JsUndefined (props o !! name).

(** [Hook::PrepareContext]: afterwards both fields are objects.  A new
    storage map is attached to the context under ["storage"]. *)
Definition PrepareContext (h : PerThread) (env : Env World)
  : Prepared * Env World :=
  let '(ctx, env1) :=
    match context h with
    | Some c => (c, env)
    | None =>
        (mkJsObject (nextObjectId env) ∅,
         mkEnv (world env) (N.succ (nextObjectId env)) (taskQueue env)
           (poolPushes env) (callLog env))
    end in
  match storage h with
  | Some m => (mkPrepared ctx m, env1)
  | None =>
      let m := mkJsMap (nextObjectId env1) [] in
      (mkPrepared (SetProperty ctx "storage" (JsObjectRef (map_id m))) m,
       mkEnv (world env1) (N.succ (nextObjectId env1)) (taskQueue env1)
         (poolPushes env1) (callLog env1))
  end.

(** [Hook::ClearContextStorage]: [Map.prototype.clear] on the storage. *)
Definition ClearContextStorage (p : Prepared) : Prepared :=
  mkPrepared (p_context p) (mkJsMap (map_id (p_storage p)) []).

(** Writing the prepared objects back through the [PerThread&]. *)
Definition store (p : Prepared) (matched : bool) : PerThread :=
  mkPerThread (Some (p_storage p)) (Some (p_context p)) matched.

(** [callee.Call({ JsValue::Undefined(), perThread.context })]: the engine
    runs the callback on the context and its storage; what it did to them
    stays even when it throws. *)
Definition Call (phase : Phase) (index : nat) (owningThread : N)
  (callee : JsValue) (p : Prepared) (env : Env World)
  : Prepared * Env World * option string :=
  let r := CallHandler callee (world env) (props (p_context p))
             (entries (p_storage p)) in
  (mkPrepared (mkJsObject (obj_id (p_context p)) (r_props r))
     (mkJsMap (map_id (p_storage p)) (r_entries r)),
   mkEnv (r_world r) (nextObjectId env) (taskQueue env) (poolPushes env)
     (callLog env ++
      [mkCallEvent phase index owningThread (props (p_context p))
         (entries (p_storage p)) r]),
   r_thrown r).

(** The body of the loop of [Hook::HandleEnter] for the handler at
    [index]: the handler and event name after it, and the exception that
    left it, if any. *)
Definition HandleEnterBody (hk : Hook) (owningThread : N) (selfId : Z)
  (index : nat) (h : Handler) (eventName : string) (env : Env World)
  : Handler * string * Env World * option string :=
  let perThread0 :=
    default PerThread_default (perThread h !! owningThread) in
  let matched := Matches h selfId eventName in
  if negb matched then
    (setPerThread h owningThread
       (mkPerThread (storage perThread0) (context perThread0) matched),
     eventName, env, None)
  else
    let '(p, env1) := PrepareContext perThread0 env in
    let p := ClearContextStorage p in
    let p := mkPrepared
               (SetProperty (p_context p) "selfId"
                  (JsNumber (double_of_uint32 selfId)))
               (p_storage p) in
    let p := mkPrepared
               (SetProperty (p_context p) (eventNameVariableName hk)
                  (JsString eventName))
               (p_storage p) in
    let '(p, env2, thrown) :=
      Call OnEnter index owningThread (enter h) p env1 in
    let h' := setPerThread h owningThread (store p matched) in
    match thrown with
    | Some what => (h', eventName, env2, Some what)
    | None =>
        match to_std_string
                (GetProperty (p_context p) (eventNameVariableName hk)) with
        | Ok s => (h', s, env2, None)
        | Throw what => (h', eventName, env2, Some what)
        end
    end.

(** [Hook::HandleEnter] over the handlers from position [index] on. *)
Fixpoint HandleEnterFrom (hk : Hook) (owningThread : N) (selfId : Z)
  (index : nat) (hs : list Handler) (eventName : string) (env : Env World)
  : list Handler * string * Env World * option string :=
  match hs with
  | [] => ([], eventName, env, None)
  | h :: rest =>
      match HandleEnterBody hk owningThread selfId index h eventName env with
      | (h', eventName', env', Some what) =>
          (h' :: rest, eventName', env', Some what)
      | (h', eventName', env', None) =>
          let '(rest', eventName'', env'', thrown) :=
            HandleEnterFrom hk owningThread selfId (S index) rest
              eventName' env' in
          (h' :: rest', eventName'', env'', thrown)
      end
  end.

Definition HandleEnter (hk : Hook) (owningThread : N) (selfId : Z)
  (eventName : string) (env : Env World)
  : Hook * string * Env World * option string :=
  let '(hs, eventName', env', thrown) :=
    HandleEnterFrom hk owningThread selfId 0 (handlers hk) eventName env in
  (setHandlers hk hs, eventName', env', thrown).

(** The body of the loop of [Hook::HandleLeave]. *)
Definition HandleLeaveBody (hk : Hook) (owningThread : N) (succeeded : bool)
  (index : nat) (h : Handler) (env : Env World)
  : Handler * Env World * option string :=
  match perThread h !! owningThread with
  | None => (h, env, Some out_of_range_what)
  | Some perThread0 =>
      if negb (matchesCondition perThread0) then (h, env, None)
      else
        let '(p, env1) := PrepareContext perThread0 env in
        let p :=
          match succeededVariableName hk with
          | Some name =>
              mkPrepared (SetProperty (p_context p) name (JsBool succeeded))
                (p_storage p)
          | None => p
          end in
        let '(p, env2, thrown) :=
          Call OnLeave index owningThread (leave h) p env1 in
        match thrown with
        | Some what =>
            (setPerThread h owningThread
               (store p (matchesCondition perThread0)), env2, Some what)
        | None => (erasePerThread h owningThread, env2, None)
        end
  end.

(** [Hook::HandleLeave] over the handlers from position [index] on. *)
Fixpoint HandleLeaveFrom (hk : Hook) (owningThread : N) (succeeded : bool)
  (index : nat) (hs : list Handler) (env : Env World)
  : list Handler * Env World * option string :=
  match hs with
  | [] => ([], env, None)
  | h :: rest =>
      match HandleLeaveBody hk owningThread succeeded index h env with
      | (h', env', Some what) => (h' :: rest, env', Some what)
      | (h', env', None) =>
          let '(rest', env'', thrown) :=
            HandleLeaveFrom hk owningThread succeeded (S index) rest env' in
          (h' :: rest', env'', thrown)
      end
  end.

Definition HandleLeave (hk : Hook) (owningThread : N) (succeeded : bool)
  (env : Env World) : Hook * Env World * option string :=
  let '(hs, env', thrown) :=
    HandleLeaveFrom hk owningThread succeeded 0 (handlers hk) env in
  (setHandlers hk hs, env', thrown).

Definition fireAndForget (hk : Hook) : bool :=
  String.eqb (hookName hk) "sendPapyrusEvent".

Definition already_processing (hk : Hook) : string :=
  "'" +:+ hookName hk +:+ "' is already processing".

Definition not_processing (hk : Hook) : string :=
  "'" +:+ hookName hk +:+ "' is not processing".

(** [Hook::Enter], called on thread [owningThread].  The result is the
    hook, the caller's [eventName] and the environment when [Enter]
    returns; it has no exceptional exit. *)
Definition Enter (hk : Hook) (owningThread : N) (selfId : Z)
  (eventName : string) (env : Env World) : Hook * string * Env World :=
  if fireAndForget hk then
    (* If there are no handlers, do not do g_taskQueue *)
    if existsb (fun h => Matches h selfId eventName) (handlers hk) then
      (hk, eventName,
       AddTask (TaskHandleEnter owningThread selfId eventName) env)
    else (hk, eventName, env)
  else
    let env := PoolPush env in
    let '(hk', eventName', env', thrown) :=
      if bool_decide (owningThread ∈ inProgressThreads hk) then
        (hk, eventName, env, Some (already_processing hk))
      else
        HandleEnter
          (setInProgress hk ({[owningThread]} ∪ inProgressThreads hk))
          owningThread selfId eventName env in
    match thrown with
    | None => (hk', eventName', env')
    | Some what =>
        (hk', eventName',
         AddTask
           (TaskThrow
              (what +:+ " (while performing enter on '" +:+ hookName hk
                 +:+ "')"))
           env')
    end.

(** [Hook::Leave] *)
Definition Leave (hk : Hook) (owningThread : N) (succeeded : bool)
  (env : Env World) : Hook * Env World :=
  if fireAndForget hk then (hk, env)
  else
    let env := PoolPush env in
    let '(hk', env', thrown) :=
      if negb (bool_decide (owningThread ∈ inProgressThreads hk)) then
        (hk, env, Some (not_processing hk))
      else
        HandleLeave
          (setInProgress hk (inProgressThreads hk ∖ {[owningThread]}))
          owningThread succeeded env in
    match thrown with
    | None => (hk', env')
    | Some what =>
        (hk', AddTask (TaskThrow (what +:+ " (in SendAnimationEventLeave)"))
                env')
    end.

(** The task the papyrus hook queued, when the task queue runs it:
    [std::string s = eventName; HandleEnter(owningThread, selfId, s)]. *)
Definition RunTask (hk : Hook) (task : Task) (env : Env World)
  : Hook * Env World * option string :=
  match task with
  | TaskThrow what => (hk, env, Some what)
  | TaskHandleEnter owningThread selfId s =>
      let '(hk', _, env', thrown) :=
        HandleEnter hk owningThread selfId s env in
      (hk', env', thrown)
  end.

(** The function registered as [add] by [CreateHookApi]; [handlerObj] is
    [args[1]] read as a property bag, the others are [args[2..4]]. *)
Definition add (hookInfo : Hook) (handlerObj : gmap string JsValue)
  (arg2 arg3 arg4 : JsValue) : Result Hook :=
  let minSelfId_ := match arg2 with JsNumber d => Some d | _ => None end in
  let maxSelfId_ := match arg3 with JsNumber d => Some d | _ => None end in
  match
    match arg4 with
    | JsString s =>
        match Parse s with
        | Ok p => Ok (Some p)
        | Throw what => Throw what
        end
    | _ => Ok None
    end
  with
  | Throw what => Throw what
  | Ok pattern_ =>
      Ok (AddHandler hookInfo
            (mkHandler ∅ (default JsUndefined (handlerObj !! "enter"))
               (default JsUndefined (handlerObj !! "leave"))
               pattern_ minSelfId_ maxSelfId_))
  end.

End HookProtocol.

(** ** The callback registry *)

Abbreviation Callbacks := (gmap string (list JsValue)).

(** [struct EventsGlobalState], the object [g]. *)
Record EventsGlobalState := mkEventsGlobalState {
  callbacks : Callbacks;
  callbacksOnce : Callbacks;
  sendAnimationEvent : Hook;
  sendPapyrusEvent : Hook
}.

(** The constructor: two hooks without handlers, empty maps. *)
Definition EventsGlobalState_new : EventsGlobalState :=
  mkEventsGlobalState ∅ ∅
    (Hook_new "sendAnimationEvent" "animEventName" (Some "animationSucceeded"))
    (Hook_new "sendPapyrusEvent" "papyrusEventName" None).

(** [EventsApi::Clear]: [g = {}] *)
Definition Clear (g : EventsGlobalState) : EventsGlobalState :=
  EventsGlobalState_new.

(** The [std::set<std::string> events] of [AddCallback]. *)
Definition events : gset string :=
  list_to_set
    [ "tick"; "update"; "effectStart"; "effectFinish"; "magicEffectApply";
      "equip"; "unequip"; "hit"; "containerChanged"; "deathStart";
      "deathEnd"; "loadGame"; "combatState"; "reset"; "scriptInit";
      "trackedStats"; "uniqueIdChange"; "switchRaceComplete";
      "cellFullyLoaded"; "grabRelease"; "lockChanged"; "moveAttachDetach";
      "objectLoaded"; "waitStop"; "activate" ].

(** [m[eventName].push_back(callback)] *)
Definition push_back (m : Callbacks) (eventName : string) (callback : JsValue)
  : Callbacks :=
  <[eventName := (default [] (m !! eventName) ++ [callback])%list]> m.

(** One [f.Call(arguments)] of a registry callback, with the two live maps
    of [g] at the moment of the call. *)
Record Invocation := mkInvocation {
  inv_callee : JsValue;
  inv_arguments : list JsValue;
  inv_callbacks : Callbacks;
  inv_callbacksOnce : Callbacks
}.

(** The script side of the registry: the world and the calls received. *)
Record Script (W : Type) := mkScript {
  script_world : W;
  invocations : list Invocation
}.
Arguments mkScript {W} _ _.
Arguments script_world {W} _.
Arguments invocations {W} _.

Section CallbackRegistry.
Context {E : ScriptEngine}.

(** [AddCallback(args, isOnce)] with [eventName = args[1].ToString()] and
    [callback = args[2]]. *)
Definition AddCallback (eventName : string) (callback : JsValue)
  (isOnce : bool) (g : EventsGlobalState) : Result EventsGlobalState :=
  if negb (bool_decide (eventName ∈ events)) then
    Throw (InvalidArgumentException_what "eventName" eventName)
  else if isOnce then
    Ok (mkEventsGlobalState (callbacks g)
          (push_back (callbacksOnce g) eventName callback)
          (sendAnimationEvent g) (sendPapyrusEvent g))
  else
    Ok (mkEventsGlobalState (push_back (callbacks g) eventName callback)
          (callbacksOnce g) (sendAnimationEvent g) (sendPapyrusEvent g)).

(** [EventsApi::On], [EventsApi::Once] *)
Definition On (eventName : string) (callback : JsValue)
  (g : EventsGlobalState) : Result EventsGlobalState :=
  AddCallback eventName callback false g.

Definition Once (eventName : string) (callback : JsValue)
  (g : EventsGlobalState) : Result EventsGlobalState :=
  AddCallback eventName callback true g.

(** What a running callback does to [g], step by step. *)
Fixpoint RunActions (acts : list Action) (g : EventsGlobalState)
  : EventsGlobalState * option string :=
  match acts with
  | [] => (g, None)
  | ActOn eventName callback :: rest =>
      match On eventName callback g with
      | Ok g' => RunActions rest g'
      | Throw what => (g, Some what)
      end
  | ActOnce eventName callback :: rest =>
      match Once eventName callback g with
      | Ok g' => RunActions rest g'
      | Throw what => (g, Some what)
      end
  | ActThrow what :: _ => (g, Some what)
  end.

(** [f.Call(arguments)] *)
Definition CallOne (f : JsValue) (arguments : list JsValue)
  (g : EventsGlobalState) (js : Script World)
  : EventsGlobalState * Script World * option string :=
  let '(acts, w) := CallCallback f arguments (script_world js) in
  let '(g', thrown) := RunActions acts g in
  (g',
   mkScript w
     (invocations js ++
      [mkInvocation f arguments (callbacks g) (callbacksOnce g)]),
   thrown).

(** [for (auto& f : callbacks[eventName]) f.Call(arguments);] over a
    snapshot; the first exception ends the loop. *)
Fixpoint CallEach (snapshot : list JsValue) (arguments : list JsValue)
  (g : EventsGlobalState) (js : Script World)
  : EventsGlobalState * Script World * option string :=
  match snapshot with
  | [] => (g, js, None)
  | f :: rest =>
      match CallOne f arguments g js with
      | (g', js', Some what) => (g', js', Some what)
      | (g', js', None) => CallEach rest arguments g' js'
      end
  end.

(** [CallCalbacks(eventName, arguments, isOnce)]: the map is copied, the
    live one-shot list is emptied, the copy is walked. *)
Definition CallCalbacks (eventName : string) (arguments : list JsValue)
  (isOnce : bool) (g : EventsGlobalState) (js : Script World)
  : EventsGlobalState * Script World * option string :=
  let snapshot := if isOnce then callbacksOnce g else callbacks g in
  let g1 :=
    if isOnce then
      mkEventsGlobalState (callbacks g)
        (<[eventName := []]> (callbacksOnce g))
        (sendAnimationEvent g) (sendPapyrusEvent g)
    else g in
  CallEach (default [] (snapshot !! eventName)) arguments g1 js.

(** [EventsApi::SendEvent] *)
Definition SendEvent (eventName : string) (arguments : list JsValue)
  (g : EventsGlobalState) (js : Script World)
  : EventsGlobalState * Script World * option string :=
  match CallCalbacks eventName arguments false g js with
  | (g', js', Some what) => (g', js', Some what)
  | (g', js', None) => CallCalbacks eventName arguments true g' js'
  end.

End CallbackRegistry.

(** ** Vocabulary of the statements *)

(** The id is within the bounds that are present. *)
Definition withinBounds (h : Handler) (selfId : Z) : Prop :=
  (forall lo, minSelfId h = Some lo ->
     PrimFloat.ltb (double_of_uint32 selfId) lo = false) /\
  (forall hi, maxSelfId h = Some hi ->
     PrimFloat.ltb hi (double_of_uint32 selfId) = false).

(** Two handlers with the same immutable filter fields. *)
Definition sameFilter (h h' : Handler) : Prop :=
  pattern h = pattern h' /\ minSelfId h = minSelfId h' /\
  maxSelfId h = maxSelfId h'.

(** [needle] occurs in [text]. *)
Definition mentions (needle text : string) : Prop :=
  exists before after, text = before +:+ needle +:+ after.

(** ** Vocabulary of the pass statements *)

Section PassVocabulary.
Context {E : ScriptEngine}.

(** The properties the enter callback of [hk] receives for [eventName]. *)
Definition enterProps (hk : Hook) (selfId : Z) (eventName : string)
  (p : Prepared) : gmap string JsValue :=
  <[eventNameVariableName hk := JsString eventName]>
    (<["selfId" := JsNumber (double_of_uint32 selfId)]>
       (props (p_context p))).

(** The event name after a call that left [r]. *)
Definition nameAfter (hk : Hook) (eventName : string)
  (r : JsCallResult World) : string :=
  match r_thrown r with
  | Some _ => eventName
  | None =>
      match to_std_string
              (default JsUndefined (r_props r !! eventNameVariableName hk))
      with
      | Ok s => s
      | Throw _ => eventName
      end
  end.

(** The exception after a call that left [r]. *)
Definition thrownAfter (hk : Hook) (r : JsCallResult World) : option string :=
  match r_thrown r with
  | Some what => Some what
  | None =>
      match to_std_string
              (default JsUndefined (r_props r !! eventNameVariableName hk))
      with
      | Ok _ => None
      | Throw what => Some what
      end
  end.

(** What [Enter] makes of the outcome of its [try] block. *)
Definition reportEnter (hk : Hook) (thrown : option string) (env : Env World)
  : Env World :=
  match thrown with
  | None => env
  | Some what =>
      AddTask
        (TaskThrow
           (what +:+ " (while performing enter on '" +:+ hookName hk +:+ "')"))
        env
  end.

(** The event name with which the enter pass reaches the handler at
    position [index], read off the calls [evs] of the pass: the caller's
    [eventName] as the enter callbacks of the handlers before that position
    left it, one after the other. *)
Fixpoint nameReached (hk : Hook) (eventName : string) (index : nat)
  (evs : list (CallEvent World)) : string :=
  match evs with
  | [] => eventName
  | e :: rest =>
      nameReached hk
        (if Nat.ltb (ev_handler e) index
         then nameAfter hk eventName (ev_result e)
         else eventName)
        index rest
  end.

(** The entry of thread [owningThread] that the enter pass leaves in the
    handler at position [index], which it reached with the event name
    [eventName]: the entry exists; its flag is the outcome of [Matches] on
    that name; when the flag is not set, storage and context are those of
    the entry that was there (none in a new entry); when it is set, the
    enter callback of the handler was called, on an empty storage, and the
    storage of the entry is what that call left. *)
Definition entered (owningThread : N) (selfId : Z) (index : nat)
  (eventName : string) (evs : list (CallEvent World)) (h h' : Handler)
  : Prop :=
  enter h' = enter h /\ leave h' = leave h /\ sameFilter h h' /\
  (forall t, t <> owningThread -> perThread h' !! t = perThread h !! t) /\
  exists pt,
    perThread h' !! owningThread = Some pt /\
    matchesCondition pt = Matches h selfId eventName /\
    (matchesCondition pt = false ->
     pt = mkPerThread
            (storage (default PerThread_default (perThread h !! owningThread)))
            (context (default PerThread_default (perThread h !! owningThread)))
            false) /\
    (matchesCondition pt = true ->
     exists m e w,
       storage pt = Some m /\ e ∈ evs /\ ev_handler e = index /\
       ev_phase e = OnEnter /\ ev_entries e = [] /\
       ev_result e = CallHandler (enter h) w (ev_props e) [] /\
       r_entries (ev_result e) = entries m).

(** A call made by the enter pass: the storage it hands over is empty. *)
Definition enterCall (owningThread : N) (e : CallEvent World) : Prop :=
  ev_phase e = OnEnter /\ ev_thread e = owningThread /\ ev_entries e = [].

(** A call made by the leave pass for the handler [h] at [index]: the
    entry of the thread has its flag set, the storage handed over is the
    one the entry holds, and the callee is the leave callback of [h]. *)
Definition leaveCall (owningThread : N) (index : nat) (h : Handler)
  (e : CallEvent World) : Prop :=
  ev_phase e = OnLeave /\ ev_thread e = owningThread /\
  ev_handler e = index /\
  exists pt,
    perThread h !! owningThread = Some pt /\ matchesCondition pt = true /\
    (forall m, storage pt = Some m -> ev_entries e = entries m) /\
    exists w, ev_result e = CallHandler (leave h) w (ev_props e) (ev_entries e).

(** What the leave pass, with the calls [evs], does to the entry of the
    thread in the handler at [index]: when its flag is set the leave
    callback was called and the entry is removed; otherwise the entry is
    kept as it is. *)
Definition left (owningThread : N) (index : nat)
  (evs : list (CallEvent World)) (h h' : Handler) : Prop :=
  enter h' = enter h /\ leave h' = leave h /\ sameFilter h h' /\
  (forall t, t <> owningThread -> perThread h' !! t = perThread h !! t) /\
  exists pt,
    perThread h !! owningThread = Some pt /\
    perThread h' !! owningThread
      = (if matchesCondition pt then None else Some pt) /\
    (matchesCondition pt = true ->
     exists e, e ∈ evs /\ leaveCall owningThread index h e).

(** What [Leave] makes of the outcome of its [try] block. *)
Definition reportLeave (thrown : option string) (env : Env World)
  : Env World :=
  match thrown with
  | None => env
  | Some what =>
      AddTask (TaskThrow (what +:+ " (in SendAnimationEventLeave)")) env
  end.

End PassVocabulary.

(** ** Vocabulary of the registry statements *)

(** No callback is registered for [eventName], in either map. *)
Definition silent (g : EventsGlobalState) (eventName : string) : Prop :=
  default [] (callbacks g !! eventName) = [] /\
  default [] (callbacksOnce g !! eventName) = [].

(** [g] after the one-shot list of [eventName] was emptied. *)
Definition clearedOnce (g : EventsGlobalState) (eventName : string)
  : EventsGlobalState :=
  mkEventsGlobalState (callbacks g) (<[eventName := []]> (callbacksOnce g))
    (sendAnimationEvent g) (sendPapyrusEvent g).

(** The callback only registers one-shot callbacks other than [cb], or
    throws. *)
Definition registersOther (cb : JsValue) (a : Action) : Prop :=
  match a with
  | ActOnce _ f => f <> cb
  | ActThrow _ => True
  | ActOn _ _ => False
  end.

Section Reachability.
Context {E : ScriptEngine}.

(** The registries that [on], [once], [SendEvent] and [Clear] can produce
    from the constructed one. *)
Inductive Reachable : EventsGlobalState -> Prop :=
| Reachable_new : Reachable EventsGlobalState_new
| Reachable_AddCallback g eventName callback isOnce g' :
    Reachable g ->
    AddCallback eventName callback isOnce g = Ok g' ->
    Reachable g'
| Reachable_SendEvent g eventName arguments js g' js' thrown :
    Reachable g ->
    SendEvent eventName arguments g js = (g', js', thrown) ->
    Reachable g'
| Reachable_Clear g : Reachable g -> Reachable (Clear g).

End Reachability.

Section RegistryVocabulary.
Context {E : ScriptEngine}.

(** A name outside [events] has no callback. *)
Definition registryOk (g : EventsGlobalState) : Prop :=
  forall eventName, eventName ∉ events -> silent g eventName.

(** No one-shot list holds [cb]. *)
Definition onceFree (cb : JsValue) (g : EventsGlobalState) : Prop :=
  forall eventName,
    Forall (fun f => f <> cb) (default [] (callbacksOnce g !! eventName)).

End RegistryVocabulary.

(** ** A concrete engine, for running the definitions

    Function [1] rewrites ["animEventName"] to ["B"], function [2] to
    ["C"], function [3] puts one entry into the storage, function [4]
    throws; every other callee returns at once.  Registry callback [10]
    calls [once("tick", 11)], callback [12] calls [once("tick", 13)],
    callback [14] throws. *)
Definition demoCallHandler (callee : JsValue) (w : unit)
  (ctx : gmap string JsValue) (sto : list (JsValue * JsValue))
  : JsCallResult unit :=
  match callee with
  | JsFunctionRef 1 =>
      mkJsCallResult w (<["animEventName" := JsString "B"]> ctx) sto None
  | JsFunctionRef 2 =>
      mkJsCallResult w (<["animEventName" := JsString "C"]> ctx) sto None
  | JsFunctionRef 3 =>
      mkJsCallResult w ctx ((JsString "key", JsString "value") :: sto) None
  | JsFunctionRef 4 => mkJsCallResult w ctx sto (Some "Error: boom")
  | _ => mkJsCallResult w ctx sto None
  end.

Definition demoCallCallback (f : JsValue) (arguments : list JsValue)
  (w : unit) : list Action * unit :=
  match f with
  | JsFunctionRef 10 => ([ActOnce "tick" (JsFunctionRef 11)], w)
  | JsFunctionRef 12 => ([ActOnce "tick" (JsFunctionRef 13)], w)
  | JsFunctionRef 14 => ([ActThrow "Error: boom"], w)
  | _ => ([], w)
  end.

Definition demo_to_std_string (v : JsValue) : Result string :=
  match v with
  | JsString s => Ok s
  | _ => Throw "JsErrorInvalidArgument"
  end.

Definition demoEngine : ScriptEngine := {|
  World := unit;
  CallHandler := demoCallHandler;
  CallCallback := demoCallCallback;
  to_std_string := demo_to_std_string;
  to_std_string_JsString := fun s => eq_refl;
  out_of_range_what := "invalid unordered_map<K, T> key";
  InvalidArgumentException_what :=
    fun name value => "Invalid argument " +:+ name +:+ ": " +:+ value
|}.

Definition demoEnv : Env unit := mkEnv tt 0%N [] 0 [].

Definition demoScript : Script unit := mkScript tt [].

(** The animation hook with two handlers: the first rewrites every event
    name to ["B"], the second reacts to ["B"] only and rewrites it to
    ["C"]. *)
Definition demoHandlerB : Handler :=
  mkHandler ∅ (JsFunctionRef 1) JsUndefined None None None.

Definition demoHandlerC : Handler :=
  mkHandler ∅ (JsFunctionRef 2) JsUndefined (Some (mkPattern Exact "B"))
    None None.

Definition demoHookBC : Hook :=
  AddHandler
    (AddHandler (sendAnimationEvent EventsGlobalState_new) demoHandlerB)
    demoHandlerC.

(** The call the engine receives from the first handler of [demoHookBC]
    when thread 7 enters with id 20 and event name ["A"]. *)
Definition demoPropsA : gmap string JsValue :=
  <["animEventName" := JsString "A"]>
    (<["selfId" := JsNumber (double_of_uint32 20)]>
       (<["storage" := JsObjectRef 1]> ∅)).

Definition demoEventB : CallEvent unit :=
  mkCallEvent OnEnter 0 7 demoPropsA []
    (demoCallHandler (JsFunctionRef 1) tt demoPropsA []).

(** The papyrus hook with one handler that wants ids from 5 on. *)
Definition demoHandlerMin5 : Handler :=
  mkHandler ∅ (JsFunctionRef 3) (JsFunctionRef 5) None (Some 5%float) None.

Definition demoHookPapyrus : Hook :=
  AddHandler (sendPapyrusEvent EventsGlobalState_new) demoHandlerMin5.

Definition demoHookAnimation : Hook :=
  sendAnimationEvent EventsGlobalState_new.

(** The papyrus hook after the task queue ran the task that [Enter] of
    thread 1 with id 7 had queued: its handler now holds an entry. *)
Definition demoHookPapyrusRun : Hook :=
  (RunTask (E := demoEngine) demoHookPapyrus (TaskHandleEnter 1 7 "OnHit")
     demoEnv).1.1.

(** The animation hook with the handler that wants ids from 5 on; its
    enter callback (function [3]) puts one entry into the storage.  Thread 1
    enters and leaves, once with id 20 (the handler matches) and once with
    id 4 (it does not). *)
Definition demoHookStore : Hook :=
  AddHandler demoHookAnimation demoHandlerMin5.

Definition demoEnterMatched : Hook * string * Env unit :=
  Enter (E := demoEngine) demoHookStore 1 20 "Jump" demoEnv.

Definition demoLeaveMatched : Hook * Env unit :=
  Leave (E := demoEngine) demoEnterMatched.1.1 1 true demoEnterMatched.2.



(** A registry with the persistent callback [12] (which calls
    [once("tick", 13)]) and the one-shot callback [11], both on ["tick"]. *)
Definition demoRegistry : EventsGlobalState :=
  mkEventsGlobalState {["tick" := [JsFunctionRef 12]]}
    {["tick" := [JsFunctionRef 11]]}
    (sendAnimationEvent EventsGlobalState_new)
    (sendPapyrusEvent EventsGlobalState_new).

Definition demoSendTick
  : EventsGlobalState * Script unit * option string :=
  SendEvent (E := demoEngine) "tick" [] demoRegistry demoScript.

(** A registry whose only callback, [14] on ["tick"], throws. *)
Definition demoRegistryThrow : EventsGlobalState :=
  mkEventsGlobalState {["tick" := [JsFunctionRef 14]]} ∅
    (sendAnimationEvent EventsGlobalState_new)
    (sendPapyrusEvent EventsGlobalState_new).

Definition demoSendThrow
  : EventsGlobalState * Script unit * option string :=
  SendEvent (E := demoEngine) "tick" [] demoRegistryThrow demoScript.

(** ** The entry points of EventsApi *)

(** [Hook::GetName] *)
Definition GetName (hk : Hook) : string := hookName hk.

Definition setAnimation (g : EventsGlobalState) (hk : Hook)
  : EventsGlobalState :=
  mkEventsGlobalState (callbacks g) (callbacksOnce g) hk (sendPapyrusEvent g).

Definition setPapyrus (g : EventsGlobalState) (hk : Hook)
  : EventsGlobalState :=
  mkEventsGlobalState (callbacks g) (callbacksOnce g) (sendAnimationEvent g)
    hk.

(** The hook that an [add] function made by [CreateHookApi] holds. *)
Inductive HookRef := AnimationRef | PapyrusRef.

Definition hookOf (g : EventsGlobalState) (ref : HookRef) : Hook :=
  match ref with
  | AnimationRef => sendAnimationEvent g
  | PapyrusRef => sendPapyrusEvent g
  end.

(** [EventsApi::GetHooks]: one property per hook, named by [GetName], set
    in the order of the initializer list. *)
Definition GetHooks (g : EventsGlobalState) : gmap string HookRef :=
  <[GetName (sendPapyrusEvent g) := PapyrusRef]>
    (<[GetName (sendAnimationEvent g) := AnimationRef]> ∅).

(** A script call of the [add] property of one of the hooks. *)
Definition hooksAdd (g : EventsGlobalState) (ref : HookRef)
  (handlerObj : gmap string JsValue) (arg2 arg3 arg4 : JsValue)
  : Result EventsGlobalState :=
  match add (hookOf g ref) handlerObj arg2 arg3 arg4 with
  | Throw what => Throw what
  | Ok hk =>
      Ok match ref with
         | AnimationRef => setAnimation g hk
         | PapyrusRef => setPapyrus g hk
         end
  end.

Section EventsApi.
Context {E : ScriptEngine}.

(** [EventsApi::SendAnimationEventEnter], called on [owningThread]. *)
Definition SendAnimationEventEnter (g : EventsGlobalState) (owningThread : N)
  (selfId : Z) (animEventName : string) (env : Env World)
  : EventsGlobalState * string * Env World :=
  let '(hk, animEventName', env') :=
    Enter (sendAnimationEvent g) owningThread selfId animEventName env in
  (setAnimation g hk, animEventName', env').

(** [EventsApi::SendAnimationEventLeave] *)
Definition SendAnimationEventLeave (g : EventsGlobalState) (owningThread : N)
  (animationSucceeded : bool) (env : Env World)
  : EventsGlobalState * Env World :=
  let '(hk, env') :=
    Leave (sendAnimationEvent g) owningThread animationSucceeded env in
  (setAnimation g hk, env').

(** [EventsApi::SendPapyrusEventEnter] *)
Definition SendPapyrusEventEnter (g : EventsGlobalState) (owningThread : N)
  (selfId : Z) (papyrusEventName : string) (env : Env World)
  : EventsGlobalState * string * Env World :=
  let '(hk, papyrusEventName', env') :=
    Enter (sendPapyrusEvent g) owningThread selfId papyrusEventName env in
  (setPapyrus g hk, papyrusEventName', env').

(** [EventsApi::SendPapyrusEventLeave] *)
Definition SendPapyrusEventLeave (g : EventsGlobalState) (owningThread : N)
  (env : Env World) : EventsGlobalState * Env World :=
  let '(hk, env') := Leave (sendPapyrusEvent g) owningThread true env in
  (setPapyrus g hk, env').

(** The states of [g] that the entry points can produce from the
    constructed one, the task queue running the tasks of the papyrus hook
    in between. *)
Inductive SessionReachable : EventsGlobalState -> Prop :=
| Session_new : SessionReachable EventsGlobalState_new
| Session_AddCallback g eventName callback isOnce g' :
    SessionReachable g ->
    AddCallback eventName callback isOnce g = Ok g' ->
    SessionReachable g'
| Session_SendEvent g eventName arguments js g' js' thrown :
    SessionReachable g ->
    SendEvent eventName arguments g js = (g', js', thrown) ->
    SessionReachable g'
| Session_Clear g : SessionReachable g -> SessionReachable (Clear g)
| Session_add g ref handlerObj arg2 arg3 arg4 g' :
    SessionReachable g ->
    hooksAdd g ref handlerObj arg2 arg3 arg4 = Ok g' ->
    SessionReachable g'
| Session_AnimationEnter g owningThread selfId eventName env g' eventName'
    env' :
    SessionReachable g ->
    SendAnimationEventEnter g owningThread selfId eventName env
      = (g', eventName', env') ->
    SessionReachable g'
| Session_AnimationLeave g owningThread succeeded env g' env' :
    SessionReachable g ->
    SendAnimationEventLeave g owningThread succeeded env = (g', env') ->
    SessionReachable g'
| Session_PapyrusEnter g owningThread selfId eventName env g' eventName'
    env' :
    SessionReachable g ->
    SendPapyrusEventEnter g owningThread selfId eventName env
      = (g', eventName', env') ->
    SessionReachable g'
| Session_PapyrusLeave g owningThread env g' env' :
    SessionReachable g ->
    SendPapyrusEventLeave g owningThread env = (g', env') ->
    SessionReachable g'
| Session_RunTask g task env hk env' thrown :
    SessionReachable g ->
    RunTask (sendPapyrusEvent g) task env = (hk, env', thrown) ->
    SessionReachable (setPapyrus g hk).

End EventsApi.

(** ** Vocabulary of the further statements *)

(** [name] is [s] with its ['*'], if it has one, replaced by some text. *)
Definition globMatch (s name : string) : Prop :=
  (count star s = 0 /\ name = s) \/
  (exists a b fill, s = a +:+ String star b /\ name = a +:+ fill +:+ b).

(** Two handlers with the same registration data: callbacks and filter. *)
Definition sameRegistration (h h' : Handler) : Prop :=
  enter h' = enter h /\ leave h' = leave h /\ sameFilter h h'.

(** Dispatch on thread [owningThread] turned [h] into [h']: the
    registration data and the entries of the other threads are the same. *)
Definition touchedOnly (owningThread : N) (h h' : Handler) : Prop :=
  sameRegistration h h' /\
  forall t, t <> owningThread -> perThread h' !! t = perThread h !! t.

(** The hooks of [g] are the two that the constructor made, by name and
    property names, and the papyrus hook tracks no thread. *)
Definition hooksAsConstructed (g : EventsGlobalState) : Prop :=
  hookName (sendAnimationEvent g) = "sendAnimationEvent" /\
  eventNameVariableName (sendAnimationEvent g) = "animEventName" /\
  succeededVariableName (sendAnimationEvent g) = Some "animationSucceeded" /\
  hookName (sendPapyrusEvent g) = "sendPapyrusEvent" /\
  eventNameVariableName (sendPapyrusEvent g) = "papyrusEventName" /\
  succeededVariableName (sendPapyrusEvent g) = None /\
  inProgressThreads (sendPapyrusEvent g) = ∅.

(** The animation hook with a handler whose enter callback (function [4])
    throws, followed by the handler that wants ids from 5 on.  Thread 1
    enters with id 20 and leaves. *)
Definition demoHandlerThrow : Handler :=
  mkHandler ∅ (JsFunctionRef 4) JsUndefined None None None.

Definition demoHookThrow : Hook :=
  AddHandler (AddHandler demoHookAnimation demoHandlerThrow) demoHandlerMin5.

Definition demoEnterThrow : Hook * string * Env unit :=
  Enter (E := demoEngine) demoHookThrow 1 20 "Jump" demoEnv.

Definition demoLeaveThrow : Hook * Env unit :=
  Leave (E := demoEngine) demoEnterThrow.1.1 1 true demoEnterThrow.2.

(** The papyrus hook after its queued task ran a second time. *)
Definition demoPapyrusRun1
  : Hook * Env unit * option string :=
  RunTask (E := demoEngine) demoHookPapyrus (TaskHandleEnter 1 7 "OnHit")
    demoEnv.

Definition demoPapyrusRun2
  : Hook * Env unit * option string :=
  RunTask (E := demoEngine) demoPapyrusRun1.1.1 (TaskHandleEnter 1 7 "OnHit")
    demoPapyrusRun1.1.2.

(** A session in which the script registered one papyrus handler with
    [add({enter: 3, leave: 5}, 5)]. *)
Definition demoHandlerObj : gmap string JsValue :=
  <["enter" := JsFunctionRef 3]> (<["leave" := JsFunctionRef 5]> ∅).

Definition demoSession : EventsGlobalState :=
  setPapyrus EventsGlobalState_new demoHookPapyrus.

(** A registry with three one-shot callbacks on ["tick"], the second of
    which, [14], throws. *)
Definition demoRegistryDrop : EventsGlobalState :=
  mkEventsGlobalState ∅
    {["tick" := [JsFunctionRef 11; JsFunctionRef 14; JsFunctionRef 13]]}
    (sendAnimationEvent EventsGlobalState_new)
    (sendPapyrusEvent EventsGlobalState_new).

(** A registry with the persistent callback [11] and the one-shot callback
    [13] on ["tick"]; neither registers anything. *)
Definition demoRegistryIdle : EventsGlobalState :=
  mkEventsGlobalState {["tick" := [JsFunctionRef 11]]}
    {["tick" := [JsFunctionRef 13]]}
    (sendAnimationEvent EventsGlobalState_new)
    (sendPapyrusEvent EventsGlobalState_new).

(** The animation hook with two handlers without filter: the leave
    callback of the first (function [4]) throws; the enter callback of the
    second (function [3]) puts one entry into its storage.  Thread 1 enters
    with id 20 and leaves. *)
Definition demoHandlerLeaveThrows : Handler :=
  mkHandler ∅ (JsFunctionRef 6) (JsFunctionRef 4) None None None.

Definition demoHandlerStores : Handler :=
  mkHandler ∅ (JsFunctionRef 3) (JsFunctionRef 5) None None None.

Definition demoHookLeaveThrows : Hook :=
  AddHandler (AddHandler demoHookAnimation demoHandlerLeaveThrows)
    demoHandlerStores.

Definition demoEnterLeaveThrows : Hook * string * Env unit :=
  Enter (E := demoEngine) demoHookLeaveThrows 1 20 "Jump" demoEnv.

Definition demoLeaveLeaveThrows : Hook * Env unit :=
  Leave (E := demoEngine) demoEnterLeaveThrows.1.1 1 true
    demoEnterLeaveThrows.2.

(** The animation hook with three handlers: the first rewrites every
    event name to ["B"]; the second reacts to ["B"] only and rewrites it to
    ["C"]; the third reacts to ["A"] only.  Thread 7 enters with id 20 and
    event name ["A"], and leaves: the third handler is reached with ["C"]. *)
Definition demoHandlerA : Handler :=
  mkHandler ∅ (JsFunctionRef 6) (JsFunctionRef 5)
    (Some (mkPattern Exact "A")) None None.

Definition demoHookBCA : Hook := AddHandler demoHookBC demoHandlerA.

Definition demoEnterBCA : Hook * string * Env unit :=
  Enter (E := demoEngine) demoHookBCA 7 20 "A" demoEnv.

Definition demoLeaveBCA : Hook * Env unit :=
  Leave (E := demoEngine) demoEnterBCA.1.1 7 true demoEnterBCA.2.

(** Thread 1 enters [demoHookLeaveThrows] a second time, after the pair
    above: the second handler still holds its entry, storage included. *)
Definition demoEnterAgain : Hook * string * Env unit :=
  Enter (E := demoEngine) demoLeaveLeaveThrows.1 1 20 "Jump"
    demoLeaveLeaveThrows.2.

(** * Properties *)

(** ** Pattern::Parse *)

Lemma substring_0_length (s : string) : substring 0 (String.length s) s = s.
Proof. induction s as [|a s IH]; simpl; [reflexivity | now rewrite IH]. Qed.

Lemma substring_0_app (X Y : string) :
  substring 0 (String.length X) (X +:+ Y) = X.
Proof.
  induction X as [|a X IH]; simpl.
  - destruct Y; reflexivity.
  - now rewrite IH.
Qed.

Lemma count_app (c : ascii) (X Y : string) :
  count c (X +:+ Y) = count c X + count c Y.
Proof. induction X as [|a X IH]; simpl; [reflexivity | rewrite IH; lia]. Qed.

Lemma find_app_absent (c : ascii) (X Y : string) :
  count c X = 0 ->
  find c (X +:+ String c Y) = Some (String.length X).
Proof.
  induction X as [|a X IH]; simpl; intros Hc.
  - now rewrite Ascii.eqb_refl.
  - destruct (Ascii.eqb a c); [discriminate|].
    now rewrite IH.
Qed.

Lemma length_app_one (X : string) (c : ascii) :
  String.length (X +:+ String c "") = S (String.length X).
Proof. induction X as [|a X IH]; simpl; [reflexivity | now rewrite IH]. Qed.

Lemma Parse_Exact (s : string) :
  count star s = 0 -> Parse s = Ok (mkPattern Exact s).
Proof. intros H. unfold Parse. now rewrite H. Qed.

Lemma Parse_EndsWith (X : string) :
  count star X = 0 -> Parse (String star X) = Ok (mkPattern EndsWith X).
Proof.
  intros H. unfold Parse. cbn [count find]. rewrite Ascii.eqb_refl, H.
  cbn. now rewrite Nat.sub_0_r, substring_0_length.
Qed.

Lemma Parse_StartsWith (X : string) :
  count star X = 0 -> X <> "" ->
  Parse (X +:+ "*") = Ok (mkPattern StartsWith X).
Proof.
  intros H Hne. unfold Parse.
  rewrite count_app, H. cbn [count]. rewrite Ascii.eqb_refl. cbn.
  change "*" with (String star "").
  rewrite find_app_absent by assumption.
  rewrite length_app_one. cbn [Nat.sub]. rewrite Nat.sub_0_r.
  rewrite bool_decide_eq_false_2.
  2:{ intros [= Hl]. destruct X; [congruence | discriminate]. }
  rewrite bool_decide_eq_true_2 by reflexivity.
  now rewrite substring_0_app.
Qed.

Lemma Parse_too_many (s : string) :
  1 < count star s -> Parse s = Throw too_many_stars.
Proof.
  intros H. unfold Parse.
  destruct (Nat.eqb_spec (count star s) 0) as [H0|_]; [lia|].
  destruct (Nat.ltb_spec 1 (count star s)); [reflexivity | lia].
Qed.

Lemma Parse_misplaced (s : string) :
  count star s = 1 ->
  find star s <> Some 0 -> find star s <> Some (String.length s - 1) ->
  Parse s = Throw misplaced_star.
Proof.
  intros H H0 Hl. unfold Parse. rewrite H. cbn.
  rewrite !bool_decide_eq_false_2; [reflexivity | assumption | assumption].
Qed.

Lemma add_Throw (hookInfo : Hook) (handlerObj : gmap string JsValue)
  (arg2 arg3 : JsValue) (s what : string) :
  Parse s = Throw what ->
  add hookInfo handlerObj arg2 arg3 (JsString s) = Throw what.
Proof. intros H. unfold add. now rewrite H. Qed.

Lemma add_Ok (hookInfo : Hook) (handlerObj : gmap string JsValue)
  (arg2 arg3 : JsValue) (s : string) (p : Pattern) :
  Parse s = Ok p ->
  exists h, add hookInfo handlerObj arg2 arg3 (JsString s)
            = Ok (AddHandler hookInfo h) /\ pattern h = Some p.
Proof. intros H. unfold add. rewrite H. eexists. split; reflexivity. Qed.

(** C6. [Parse] maps a string without ['*'] to [Exact], ["*X"] to
    [EndsWith X] and ["X*"] (with [X] not empty) to [StartsWith X], and
    throws for a string with more than one ['*'] or with its only ['*']
    neither first nor last.  The exception leaves [add], the registration
    call, which then registers nothing; a registered handler holds the
    pattern already parsed, and [Matches], which dispatch runs on it, is a
    boolean function without exceptional exit. *)
Theorem Parse_spec :
  (forall s, count star s = 0 -> Parse s = Ok (mkPattern Exact s)) /\
  (forall X, count star X = 0 ->
     Parse (String star X) = Ok (mkPattern EndsWith X)) /\
  (forall X, count star X = 0 -> X <> "" ->
     Parse (X +:+ "*") = Ok (mkPattern StartsWith X)) /\
  (forall s, 1 < count star s -> Parse s = Throw too_many_stars) /\
  (forall s, count star s = 1 ->
     find star s <> Some 0 -> find star s <> Some (String.length s - 1) ->
     Parse s = Throw misplaced_star) /\
  Parse "f*o*o" = Throw too_many_stars /\
  Parse "f*o" = Throw misplaced_star /\
  (forall hookInfo handlerObj arg2 arg3 s what,
     Parse s = Throw what ->
     add hookInfo handlerObj arg2 arg3 (JsString s) = Throw what) /\
  (forall hookInfo handlerObj arg2 arg3 s p,
     Parse s = Ok p ->
     exists h, add hookInfo handlerObj arg2 arg3 (JsString s)
               = Ok (AddHandler hookInfo h) /\
               pattern h = Some p).
Proof.
  split; [exact Parse_Exact|].
  split; [exact Parse_EndsWith|].
  split; [exact Parse_StartsWith|].
  split; [exact Parse_too_many|].
  split; [exact Parse_misplaced|].
  split; [reflexivity|].
  split; [reflexivity|].
  split; [intros; now apply add_Throw|].
  intros hookInfo handlerObj arg2 arg3 s p H.
  exact (add_Ok hookInfo handlerObj arg2 arg3 s p H).
Qed.

Lemma Parse_spec_witness :
  Parse "foo" = Ok (mkPattern Exact "foo") /\
  Parse "*foo" = Ok (mkPattern EndsWith "foo") /\
  Parse "foo*" = Ok (mkPattern StartsWith "foo") /\
  Parse "**" = Throw too_many_stars /\
  Parse "a*b" = Throw misplaced_star /\
  add (Hook_new "sendAnimationEvent" "animEventName" None) ∅
    JsUndefined JsUndefined (JsString "f*o") = Throw misplaced_star /\
  (exists h,
     add (Hook_new "sendAnimationEvent" "animEventName" None) ∅
       JsUndefined JsUndefined (JsString "Jump*")
     = Ok (AddHandler (Hook_new "sendAnimationEvent" "animEventName" None) h)
     /\ pattern h = Some (mkPattern StartsWith "Jump")).
Proof.
  destruct Parse_spec as (H1 & H2 & H3 & H4 & H5 & _ & _ & H8 & H9).
  split; [apply H1; reflexivity|].
  split; [apply (H2 "foo"); reflexivity|].
  split; [apply (H3 "foo"); [reflexivity | discriminate]|].
  split; [apply H4; simpl; lia|].
  split; [apply H5; [reflexivity | discriminate | discriminate]|].
  split; [apply H8; reflexivity|].
  apply H9. reflexivity.
Defined.

(** The lone star is read as a suffix pattern with an empty fragment. *)
Example Parse_star : Parse "*" = Ok (mkPattern EndsWith "").
Proof. reflexivity. Qed.

(** ** Handler::Matches *)

Lemma memcmp_short (a b : string) (n : nat) :
  String.length a < n -> n <= String.length b -> memcmp a b n <> Eq.
Proof.
  revert a b. induction n as [|n IH]; intros a b Ha Hb; [lia|].
  destruct a as [|x a], b as [|y b]; simpl in *; try lia; try discriminate.
  destruct (N.compare (N_of_ascii x) (N_of_ascii y)); try discriminate.
  apply IH; lia.
Qed.

Lemma PatternMatches_short (p : Pattern) (eventName : string) :
  type p <> Exact ->
  String.length eventName < String.length (str p) ->
  PatternMatches p eventName = false.
Proof.
  intros Ht Hlen. unfold PatternMatches.
  destruct (type p); [congruence| |];
    (destruct (Nat.leb_spec (String.length (str p)) (String.length eventName));
     [lia | reflexivity]).
Qed.

Lemma Matches_below_min (h : Handler) (selfId : Z) (eventName : string)
  (lo : float) :
  minSelfId h = Some lo ->
  PrimFloat.ltb (double_of_uint32 selfId) lo = true ->
  Matches h selfId eventName = false.
Proof. intros Hm Hlt. unfold Matches. now rewrite Hm, Hlt. Qed.

Lemma Matches_above_max (h : Handler) (selfId : Z) (eventName : string)
  (hi : float) :
  maxSelfId h = Some hi ->
  PrimFloat.ltb hi (double_of_uint32 selfId) = true ->
  Matches h selfId eventName = false.
Proof.
  intros Hm Hlt. unfold Matches. rewrite Hm, Hlt.
  now destruct (match minSelfId h with Some _ => _ | None => _ end).
Qed.

Lemma Matches_within (h : Handler) (selfId : Z) (eventName : string) :
  withinBounds h selfId ->
  Matches h selfId eventName =
  match pattern h with
  | Some p => PatternMatches p eventName
  | None => true
  end.
Proof.
  intros [Hlo Hhi]. unfold Matches.
  destruct (minSelfId h) as [lo|]; [rewrite (Hlo lo eq_refl)|];
    (destruct (maxSelfId h) as [hi|]; [rewrite (Hhi hi eq_refl)|]);
    reflexivity.
Qed.

(** C7. [Matches] answers [false] as soon as the id is below a present
    minimum, whatever the maximum and the pattern are; else [false] when
    the id is above a present maximum, whatever the pattern is; else the
    pattern decides, and without a pattern the answer is [true].  Both
    bounds are inclusive: with min 5 and max 10 the ids 4 and 11 never
    match and 5 and 10 match exactly when the pattern does.  A StartsWith
    or EndsWith pattern rejects every name shorter than its fragment. *)
Theorem Matches_spec :
  (forall h selfId eventName lo,
     minSelfId h = Some lo ->
     PrimFloat.ltb (double_of_uint32 selfId) lo = true ->
     Matches h selfId eventName = false) /\
  (forall h selfId eventName hi,
     maxSelfId h = Some hi ->
     PrimFloat.ltb hi (double_of_uint32 selfId) = true ->
     Matches h selfId eventName = false) /\
  (forall h selfId eventName,
     withinBounds h selfId ->
     Matches h selfId eventName =
     match pattern h with
     | Some p => PatternMatches p eventName
     | None => true
     end) /\
  (forall h selfId eventName,
     minSelfId h = None -> maxSelfId h = None -> pattern h = None ->
     Matches h selfId eventName = true) /\
  (forall pt en le p eventName,
     let h := mkHandler pt en le p (Some 5%float) (Some 10%float) in
     Matches h 4 eventName = false /\
     Matches h 11 eventName = false /\
     Matches h 5 eventName =
       match p with Some q => PatternMatches q eventName | None => true end /\
     Matches h 10 eventName =
       match p with Some q => PatternMatches q eventName | None => true end) /\
  (forall h selfId eventName p,
     pattern h = Some p -> type p <> Exact ->
     String.length eventName < String.length (str p) ->
     Matches h selfId eventName = false).
Proof.
  split; [exact Matches_below_min|].
  split; [exact Matches_above_max|].
  split; [exact Matches_within|].
  split.
  { intros h selfId eventName H1 H2 H3. unfold Matches.
    now rewrite H1, H2, H3. }
  split.
  { intros pt en le p eventName h. subst h.
    repeat split; vm_compute; reflexivity. }
  intros h selfId eventName p Hp Ht Hlen. unfold Matches. rewrite Hp.
  rewrite (PatternMatches_short p eventName Ht Hlen).
  destruct (match minSelfId h with Some _ => _ | None => _ end);
    [reflexivity|].
  now destruct (match maxSelfId h with Some _ => _ | None => _ end).
Qed.

Lemma Matches_spec_witness :
  Matches (mkHandler ∅ JsUndefined JsUndefined None (Some 5%float) None)
    4 "Jump" = false /\
  Matches (mkHandler ∅ JsUndefined JsUndefined None None (Some 10%float))
    11 "Jump" = false /\
  Matches (mkHandler ∅ JsUndefined JsUndefined
             (Some (mkPattern StartsWith "Jump")) (Some 5%float)
             (Some 10%float)) 5 "JumpUp" = true /\
  Matches (mkHandler ∅ JsUndefined JsUndefined None None None) 7 "Jump"
    = true /\
  Matches (mkHandler ∅ JsUndefined JsUndefined
             (Some (mkPattern EndsWith "JumpUp")) None None) 7 "Up" = false.
Proof.
  destruct Matches_spec as (H1 & H2 & H3 & H4 & _ & H6).
  split; [apply (H1 _ _ _ 5%float); reflexivity|].
  split; [apply (H2 _ _ _ 10%float); reflexivity|].
  split.
  { rewrite H3; [reflexivity|].
    split; intros b [= <-]; reflexivity. }
  split; [apply H4; reflexivity|].
  apply (H6 _ _ _ (mkPattern EndsWith "JumpUp"));
    [reflexivity | discriminate | simpl; lia].
Defined.

(** ** Hook::Enter of the papyrus hook *)

Section EnterLeave.
Context {E : ScriptEngine}.

Lemma Matches_sameFilter (h h' : Handler) (selfId : Z) (eventName : string) :
  sameFilter h h' -> Matches h selfId eventName = Matches h' selfId eventName.
Proof. intros (Hp & Hlo & Hhi). unfold Matches. now rewrite Hp, Hlo, Hhi. Qed.

Lemma existsb_Matches_sameFilter (hs hs' : list Handler) (selfId : Z)
  (eventName : string) :
  Forall2 sameFilter hs hs' ->
  existsb (fun h => Matches h selfId eventName) hs =
  existsb (fun h => Matches h selfId eventName) hs'.
Proof.
  induction 1 as [|h h' hs hs' Hh _ IH]; simpl; [reflexivity|].
  now rewrite (Matches_sameFilter h h' _ _ Hh), IH.
Qed.

(** C8. On the papyrus hook [Enter] decides from the filter fields alone:
    two hooks whose handlers agree on them queue the same tasks, whatever
    the per-thread entries hold.  When no handler matches, nothing
    changes: no task is queued and no round trip to the script thread is
    made.  When one matches, exactly one task is queued, still without a
    round trip; the hook, its per-thread entries, the script world and the
    caller's event name are as before. *)
Theorem Enter_fireAndForget (hk : Hook) (owningThread : N) (selfId : Z)
  (eventName : string) (env : Env World) :
  fireAndForget hk = true ->
  ((forall h, h ∈ handlers hk -> Matches h selfId eventName = false) ->
   Enter hk owningThread selfId eventName env = (hk, eventName, env)) /\
  ((exists h, h ∈ handlers hk /\ Matches h selfId eventName = true) ->
   Enter hk owningThread selfId eventName env =
   (hk, eventName,
    mkEnv (world env) (nextObjectId env)
      (taskQueue env ++ [TaskHandleEnter owningThread selfId eventName])
      (poolPushes env) (callLog env))) /\
  (forall hk', hookName hk' = hookName hk ->
     Forall2 sameFilter (handlers hk) (handlers hk') ->
     taskQueue (Enter hk' owningThread selfId eventName env).2 =
     taskQueue (Enter hk owningThread selfId eventName env).2).
Proof.
  intros Hff. unfold Enter. rewrite Hff. repeat split.
  - intros Hnone.
    destruct (existsb _ (handlers hk)) eqn:Hex; [|reflexivity].
    apply existsb_exists in Hex as (h & Hin & Hm).
    rewrite Hnone in Hm; [discriminate | now apply list_elem_of_In].
  - intros (h & Hin & Hm).
    destruct (existsb _ (handlers hk)) eqn:Hex; [reflexivity|].
    assert (existsb (fun h => Matches h selfId eventName) (handlers hk)
            = true) as Hex'.
    { apply existsb_exists. exists h. split; [now apply list_elem_of_In|easy]. }
    congruence.
  - intros hk' Hname Hsame.
    assert (fireAndForget hk' = true) as ->
      by (unfold fireAndForget in *; now rewrite Hname).
    rewrite (existsb_Matches_sameFilter _ _ selfId eventName Hsame).
    now destruct (existsb _ (handlers hk')).
Qed.

(** ** Reentrancy *)

Lemma append_assoc (a b c : string) : (a +:+ b) +:+ c = a +:+ b +:+ c.
Proof.
  induction a as [|x a IH]; [reflexivity|].
  change (String x ((a +:+ b) +:+ c) = String x (a +:+ b +:+ c)).
  now rewrite IH.
Qed.

Lemma mentions_intro (before needle after text : string) :
  text = before +:+ needle +:+ after -> mentions needle text.
Proof. intros ->. now exists before, after. Qed.

Lemma HandleEnter_frame (hk hk' : Hook) (owningThread : N) (selfId : Z)
  (eventName eventName' : string) (env env' : Env World) (thrown : option string) :
  HandleEnter hk owningThread selfId eventName env
    = (hk', eventName', env', thrown) ->
  hookName hk' = hookName hk /\
  eventNameVariableName hk' = eventNameVariableName hk /\
  succeededVariableName hk' = succeededVariableName hk /\
  inProgressThreads hk' = inProgressThreads hk.
Proof.
  unfold HandleEnter.
  destruct (HandleEnterFrom _ _ _ _ _ _ _) as [[[hs n] e] t].
  intros [= <- _ _ _]. now repeat split.
Qed.

Lemma HandleLeave_frame (hk hk' : Hook) (owningThread : N) (succeeded : bool)
  (env env' : Env World) (thrown : option string) :
  HandleLeave hk owningThread succeeded env = (hk', env', thrown) ->
  hookName hk' = hookName hk /\
  eventNameVariableName hk' = eventNameVariableName hk /\
  succeededVariableName hk' = succeededVariableName hk /\
  inProgressThreads hk' = inProgressThreads hk.
Proof.
  unfold HandleLeave.
  destruct (HandleLeaveFrom _ _ _ _ _ _) as [[hs e] t].
  intros [= <- _ _]. now repeat split.
Qed.

(** After [Enter] on a blocking hook the thread is in progress. *)
Lemma Enter_inProgress (hk hk1 : Hook) (owningThread : N) (selfId : Z)
  (eventName eventName1 : string) (env env1 : Env World) :
  fireAndForget hk = false ->
  Enter hk owningThread selfId eventName env = (hk1, eventName1, env1) ->
  (owningThread ∈ inProgressThreads hk1) /\ hookName hk1 = hookName hk.
Proof.
  intros Hff. unfold Enter. rewrite Hff.
  destruct (bool_decide (owningThread ∈ inProgressThreads hk)) eqn:Hin.
  - intros [= <- _ _]. split; [now apply bool_decide_eq_true in Hin | easy].
  - destruct (HandleEnter _ _ _ _ _) as [[[hk' n] e] t] eqn:HE.
    apply HandleEnter_frame in HE as (Hn & _ & _ & Hp). simpl in Hn, Hp.
    destruct t; intros [= <- _ _];
      (split; [rewrite Hp; apply elem_of_union_l, elem_of_singleton_2;
               reflexivity | easy]).
Qed.

(** After [Leave] on a blocking hook the thread is idle. *)
Lemma Leave_idle (hk hk1 : Hook) (owningThread : N) (succeeded : bool)
  (env env1 : Env World) :
  fireAndForget hk = false ->
  Leave hk owningThread succeeded env = (hk1, env1) ->
  (owningThread ∉ inProgressThreads hk1) /\ hookName hk1 = hookName hk.
Proof.
  intros Hff. unfold Leave. rewrite Hff.
  destruct (bool_decide (owningThread ∈ inProgressThreads hk)) eqn:Hin; simpl.
  - destruct (HandleLeave _ _ _ _) as [[hk' e] t] eqn:HL.
    apply HandleLeave_frame in HL as (Hn & _ & _ & Hp). simpl in Hn, Hp.
    destruct t; intros [= <- _];
      (split; [rewrite Hp; apply not_elem_of_difference; right;
               now apply elem_of_singleton_2 | easy]).
  - intros [= <- _]. split; [now apply bool_decide_eq_false in Hin | easy].
Qed.

(** C2. On a blocking hook a second [Enter] of a thread that has not left,
    and a [Leave] of a thread that is not in progress, run no handler and
    change nothing but the executor: one round trip to the script thread,
    and one failing task queued whose text names the hook and the
    operation.  [Enter] and [Leave] return to the caller all the same, the
    caller's event name untouched. *)
Theorem reentrancy_routed (hk : Hook) (owningThread : N) (env : Env World) :
  fireAndForget hk = false ->
  (forall selfId1 eventName1 hk1 eventName1' env1 selfId2 eventName2,
     Enter hk owningThread selfId1 eventName1 env
       = (hk1, eventName1', env1) ->
     exists what,
       Enter hk1 owningThread selfId2 eventName2 env1 =
       (hk1, eventName2,
        mkEnv (world env1) (nextObjectId env1)
          (taskQueue env1 ++ [TaskThrow what])
          (S (poolPushes env1)) (callLog env1)) /\
       what = "'" +:+ hookName hk +:+
              "' is already processing (while performing enter on '"
              +:+ hookName hk +:+ "')" /\
       mentions (hookName hk) what /\ mentions "enter" what) /\
  (forall succeeded,
     owningThread ∉ inProgressThreads hk ->
     exists what,
       Leave hk owningThread succeeded env =
       (hk,
        mkEnv (world env) (nextObjectId env)
          (taskQueue env ++ [TaskThrow what])
          (S (poolPushes env)) (callLog env)) /\
       what = "'" +:+ hookName hk +:+
              "' is not processing (in SendAnimationEventLeave)" /\
       mentions (hookName hk) what /\ mentions "Leave" what) /\
  (forall succeeded hk1 env1 succeeded2,
     Leave hk owningThread succeeded env = (hk1, env1) ->
     exists what,
       Leave hk1 owningThread succeeded2 env1 =
       (hk1,
        mkEnv (world env1) (nextObjectId env1)
          (taskQueue env1 ++ [TaskThrow what])
          (S (poolPushes env1)) (callLog env1))).
Proof.
  intros Hff. repeat split.
  - intros selfId1 eventName1 hk1 eventName1' env1 selfId2 eventName2 HE.
    apply Enter_inProgress in HE as [Hin Hname]; [|assumption].
    assert (fireAndForget hk1 = false) as Hff1
      by (unfold fireAndForget in *; now rewrite Hname).
    eexists. split; [|split; [|split]].
    + unfold Enter. rewrite Hff1.
      rewrite bool_decide_eq_true_2 by assumption. reflexivity.
    + unfold already_processing. rewrite Hname.
      now rewrite !append_assoc.
    + unfold already_processing. rewrite Hname.
      eapply (mentions_intro "'"). rewrite !append_assoc. reflexivity.
    + unfold already_processing. rewrite Hname.
      eapply (mentions_intro
                ("'" +:+ hookName hk +:+
                 "' is already processing (while performing ")
                "enter" (" on '" +:+ hookName hk +:+ "')")).
      now rewrite !append_assoc.
  - intros succeeded Hnin.
    eexists. split; [|split; [|split]].
    + unfold Leave. rewrite Hff.
      rewrite bool_decide_eq_false_2 by assumption. reflexivity.
    + unfold not_processing. now rewrite !append_assoc.
    + unfold not_processing.
      eapply (mentions_intro "'"). rewrite !append_assoc. reflexivity.
    + unfold not_processing.
      eapply (mentions_intro
                ("'" +:+ hookName hk +:+
                 "' is not processing (in SendAnimationEvent")
                "Leave" ")").
      now rewrite !append_assoc.
  - intros succeeded hk1 env1 succeeded2 HL.
    apply Leave_idle in HL as [Hnin Hname]; [|assumption].
    assert (fireAndForget hk1 = false) as Hff1
      by (unfold fireAndForget in *; now rewrite Hname).
    eexists. unfold Leave. rewrite Hff1.
    rewrite bool_decide_eq_false_2 by assumption. reflexivity.
Qed.

End EnterLeave.

Lemma Enter_fireAndForget_witness :
  Enter (E := demoEngine) demoHookPapyrus 1 4 "OnHit" demoEnv
    = (demoHookPapyrus, "OnHit", demoEnv) /\
  Enter (E := demoEngine) demoHookPapyrus 1 7 "OnHit" demoEnv
    = (demoHookPapyrus, "OnHit",
       mkEnv tt 0%N [TaskHandleEnter 1 7 "OnHit"] 0 []) /\
  taskQueue (Enter (E := demoEngine) demoHookPapyrusRun 1 7 "OnHit" demoEnv).2
    = taskQueue
        (Enter (E := demoEngine) demoHookPapyrus 1 7 "OnHit" demoEnv).2.
Proof.
  split; [|split].
  - apply (Enter_fireAndForget (E := demoEngine) demoHookPapyrus 1 4 "OnHit"
             demoEnv); [reflexivity|].
    intros h Hin. apply list_elem_of_singleton in Hin. subst h.
    vm_compute. reflexivity.
  - apply (Enter_fireAndForget (E := demoEngine) demoHookPapyrus 1 7 "OnHit"
             demoEnv); [reflexivity|].
    exists demoHandlerMin5. split; [apply list_elem_of_singleton; reflexivity|].
    vm_compute. reflexivity.
  - apply (Enter_fireAndForget (E := demoEngine) demoHookPapyrus 1 7 "OnHit"
             demoEnv); [reflexivity | reflexivity |].
    vm_compute. constructor; [repeat split | constructor].
Defined.

Lemma reentrancy_routed_witness :
  (exists hk1 eventName1 env1,
     Enter (E := demoEngine) demoHookAnimation 1 20 "Jump" demoEnv
       = (hk1, eventName1, env1) /\
     Enter (E := demoEngine) hk1 1 20 "Jump" env1 =
     (hk1, "Jump",
      mkEnv (world env1) (nextObjectId env1)
        (taskQueue env1 ++
         [TaskThrow
            ("'sendAnimationEvent' is already processing" +:+
             " (while performing enter on 'sendAnimationEvent')")])
        (S (poolPushes env1)) (callLog env1))) /\
  Leave (E := demoEngine) demoHookAnimation 1 true demoEnv =
  (demoHookAnimation,
   mkEnv tt 0%N
     [TaskThrow
        "'sendAnimationEvent' is not processing (in SendAnimationEventLeave)"]
     1 []) /\
  (exists what,
     Leave (E := demoEngine) demoLeaveMatched.1 1 false demoLeaveMatched.2 =
     (demoLeaveMatched.1,
      mkEnv (world demoLeaveMatched.2) (nextObjectId demoLeaveMatched.2)
        (taskQueue demoLeaveMatched.2 ++ [TaskThrow what])
        (S (poolPushes demoLeaveMatched.2)) (callLog demoLeaveMatched.2))).
Proof.
  destruct (reentrancy_routed (E := demoEngine) demoHookAnimation 1 demoEnv
              eq_refl) as (H1 & H2 & _).
  destruct (reentrancy_routed (E := demoEngine) demoEnterMatched.1.1 1
              demoEnterMatched.2 eq_refl) as (_ & _ & H3).
  split; [|split; [|apply (H3 true); vm_compute; reflexivity]].
  - destruct (Enter (E := demoEngine) demoHookAnimation 1 20 "Jump" demoEnv)
      as [[hk1 eventName1] env1] eqn:HE.
    exists hk1, eventName1, env1. split; [reflexivity|].
    destruct (H1 20%Z "Jump" hk1 eventName1 env1 20%Z "Jump" HE)
      as (what & -> & -> & _).
    reflexivity.
  - destruct (H2 true (not_elem_of_empty 1%N)) as (what & -> & -> & _).
    reflexivity.
Defined.

(** ** The passes over the handlers *)

Section Passes.
Context {E : ScriptEngine}.

Lemma PrepareContext_frame (pt : PerThread) (env : Env World) :
  world (PrepareContext pt env).2 = world env /\
  taskQueue (PrepareContext pt env).2 = taskQueue env /\
  poolPushes (PrepareContext pt env).2 = poolPushes env /\
  callLog (PrepareContext pt env).2 = callLog env.
Proof.
  unfold PrepareContext.
  destruct (context pt), (storage pt); simpl; auto.
Qed.

(** [PrepareContext] keeps a storage map that is already there, with its
    entries. *)
Lemma PrepareContext_storage (pt : PerThread) (env : Env World) (m : JsMap) :
  storage pt = Some m -> p_storage (PrepareContext pt env).1 = m.
Proof.
  intros H. unfold PrepareContext. rewrite H.
  destruct (context pt); reflexivity.
Qed.

Lemma HandleEnterBody_unmatched (hk : Hook) (owningThread : N) (selfId : Z)
  (index : nat) (h : Handler) (eventName : string) (env : Env World) :
  Matches h selfId eventName = false ->
  HandleEnterBody hk owningThread selfId index h eventName env =
  (setPerThread h owningThread
     (mkPerThread
        (storage (default PerThread_default (perThread h !! owningThread)))
        (context (default PerThread_default (perThread h !! owningThread)))
        false),
   eventName, env, None).
Proof. intros H. unfold HandleEnterBody. now rewrite H. Qed.

Lemma HandleEnterBody_matched (hk : Hook) (owningThread : N) (selfId : Z)
  (index : nat) (h : Handler) (eventName : string) (env : Env World) :
  Matches h selfId eventName = true ->
  let pt := default PerThread_default (perThread h !! owningThread) in
  let p := (PrepareContext pt env).1 in
  let env1 := (PrepareContext pt env).2 in
  let r := CallHandler (enter h) (world env)
             (enterProps hk selfId eventName p) [] in
  HandleEnterBody hk owningThread selfId index h eventName env =
  (setPerThread h owningThread
     (mkPerThread (Some (mkJsMap (map_id (p_storage p)) (r_entries r)))
        (Some (mkJsObject (obj_id (p_context p)) (r_props r))) true),
   nameAfter hk eventName r,
   mkEnv (r_world r) (nextObjectId env1) (taskQueue env) (poolPushes env)
     (callLog env ++
      [mkCallEvent OnEnter index owningThread
         (enterProps hk selfId eventName p) [] r]),
   thrownAfter hk r).
Proof.
  intros Hm pt p env1 r. unfold HandleEnterBody. rewrite Hm. cbn [negb].
  fold pt. subst r p env1.
  destruct (PrepareContext_frame pt env) as (Hw & Hq & Hp & Hl).
  destruct (PrepareContext pt env) as [p env1]. simpl in *.
  unfold Call, nameAfter, thrownAfter, enterProps, GetProperty. simpl.
  rewrite Hw, Hq, Hp, Hl.
  destruct (r_thrown _); [reflexivity|].
  now destruct (to_std_string _).
Qed.

(** The pass over [hs1 ++ hs2] is the pass over [hs1] followed, unless it
    threw, by the pass over [hs2] on the event name [hs1] left. *)
Lemma HandleEnterFrom_app (hk : Hook) (owningThread : N) (selfId : Z)
  (hs1 hs2 : list Handler) :
  forall (index : nat) (eventName : string) (env : Env World),
  HandleEnterFrom hk owningThread selfId index (hs1 ++ hs2) eventName env =
  match HandleEnterFrom hk owningThread selfId index hs1 eventName env with
  | (hs1', eventName1, env1, Some what) =>
      (hs1' ++ hs2, eventName1, env1, Some what)
  | (hs1', eventName1, env1, None) =>
      let '(hs2', eventName2, env2, thrown) :=
        HandleEnterFrom hk owningThread selfId (index + length hs1) hs2
          eventName1 env1 in
      (hs1' ++ hs2', eventName2, env2, thrown)
  end.
Proof.
  induction hs1 as [|h hs1 IH]; intros index eventName env.
  - cbn [app HandleEnterFrom length]. rewrite Nat.add_0_r.
    now destruct (HandleEnterFrom _ _ _ _ _ _ _) as [[[? ?] ?] ?].
  - cbn [app HandleEnterFrom length].
    destruct (HandleEnterBody _ _ _ _ _ _ _) as [[[h' n'] env'] [what|]];
      [reflexivity|].
    rewrite IH. rewrite Nat.add_succ_r. cbn [Nat.add].
    destruct (HandleEnterFrom hk owningThread selfId (S index) hs1 n' env')
      as [[[hs1' n1] env1] [what|]]; [reflexivity|].
    now destruct (HandleEnterFrom _ _ _ _ hs2 _ _) as [[[? ?] ?] ?].
Qed.

(** [Enter] of an idle thread on a blocking hook is one round trip that
    marks the thread and runs the pass over all handlers. *)
Lemma Enter_idle (hk : Hook) (owningThread : N) (selfId : Z)
  (eventName : string) (env : Env World) :
  fireAndForget hk = false ->
  owningThread ∉ inProgressThreads hk ->
  let hkP := setInProgress hk ({[owningThread]} ∪ inProgressThreads hk) in
  let '(hs', eventName', env', thrown) :=
    HandleEnterFrom hkP owningThread selfId 0 (handlers hk) eventName
      (PoolPush env) in
  Enter hk owningThread selfId eventName env =
  (setHandlers hkP hs', eventName', reportEnter hk thrown env').
Proof.
  intros Hff Hnin hkP. unfold Enter, HandleEnter. rewrite Hff.
  rewrite bool_decide_eq_false_2 by assumption.
  fold hkP. cbn [handlers setInProgress hkP].
  change (handlers hkP) with (handlers hk).
  destruct (HandleEnterFrom _ _ _ _ _ _ _) as [[[hs' n'] env'] [what|]];
    reflexivity.
Qed.


End Passes.


(** ** Per-thread entries across an Enter / Leave pair *)

Section Entries.
Context {E : ScriptEngine}.

Lemma nameReached_app (hk : Hook) (index : nat)
  (evs1 evs2 : list (CallEvent World)) :
  forall eventName,
  nameReached hk eventName index (evs1 ++ evs2)
  = nameReached hk (nameReached hk eventName index evs1) index evs2.
Proof.
  induction evs1 as [|e evs1 IH]; intros eventName; [reflexivity|].
  cbn [app nameReached]. apply IH.
Qed.

(** The calls of the handlers from [index] on do not count. *)
Lemma nameReached_before (hk : Hook) (index : nat)
  (evs : list (CallEvent World)) :
  forall eventName,
  Forall (fun e => index <= ev_handler e) evs ->
  nameReached hk eventName index evs = eventName.
Proof.
  induction evs as [|e evs IH]; intros eventName Hall; [reflexivity|].
  cbn [nameReached].
  rewrite (proj2 (Nat.ltb_ge (ev_handler e) index)) by exact (Forall_inv Hall).
  apply IH. exact (Forall_inv_tail Hall).
Qed.


Lemma nameReached_bound (hk : Hook) (b b' : nat)
  (evs : list (CallEvent World)) :
  forall eventName,
  Forall (fun e => ev_handler e < b) evs ->
  Forall (fun e => ev_handler e < b') evs ->
  nameReached hk eventName b evs = nameReached hk eventName b' evs.
Proof.
  induction evs as [|e evs IH]; intros eventName H1 H2; [reflexivity|].
  cbn [nameReached].
  rewrite (proj2 (Nat.ltb_lt (ev_handler e) b)) by exact (Forall_inv H1).
  rewrite (proj2 (Nat.ltb_lt (ev_handler e) b')) by exact (Forall_inv H2).
  apply IH; eapply Forall_inv_tail; eassumption.
Qed.


Lemma HandleEnterBody_spec (hk : Hook) (owningThread : N) (selfId : Z)
  (index : nat) (h : Handler) (eventName : string) (env : Env World)
  (h' : Handler) (eventName' : string) (env' : Env World)
  (thrown : option string) :
  HandleEnterBody hk owningThread selfId index h eventName env
    = (h', eventName', env', thrown) ->
  exists evs,
    callLog env' = callLog env ++ evs /\
    taskQueue env' = taskQueue env /\
    poolPushes env' = poolPushes env /\
    Forall (enterCall owningThread) evs /\
    Forall (fun e => ev_handler e = index) evs /\
    entered owningThread selfId index eventName evs h h' /\
    eventName' = nameReached hk eventName (S index) evs.
Proof.
  destruct (Matches h selfId eventName) eqn:Hm.
  - rewrite (HandleEnterBody_matched hk owningThread selfId index h eventName
               env Hm).
    cbv zeta. intros [= <- <- <- _].
    eexists [_]. cbn [callLog taskQueue poolPushes].
    split; [reflexivity|]. split; [reflexivity|]. split; [reflexivity|].
    split; [repeat constructor|]. split; [repeat constructor|].
    split.
    + split; [reflexivity|]. split; [reflexivity|].
      split; [now repeat split|].
      split.
      { intros t Ht. cbn. now rewrite lookup_insert_ne. }
      eexists. split; [cbn; apply lookup_insert_eq|].
      cbn [matchesCondition storage]. split; [now symmetry|].
      split; [discriminate|].
      intros _. eexists _, _, _. split; [reflexivity|].
      split; [apply list_elem_of_singleton; reflexivity|].
      split; [reflexivity|]. split; [reflexivity|]. split; [reflexivity|].
      split; reflexivity.
    + cbn [nameReached ev_handler ev_result].
      now rewrite (proj2 (Nat.ltb_lt index (S index))) by lia.
  - rewrite (HandleEnterBody_unmatched hk owningThread selfId index h
               eventName env Hm).
    intros [= <- <- <- _].
    exists []. rewrite app_nil_r.
    split; [reflexivity|]. split; [reflexivity|]. split; [reflexivity|].
    split; [constructor|]. split; [constructor|].
    split; [|reflexivity].
    split; [reflexivity|]. split; [reflexivity|].
    split; [now repeat split|].
    split.
    { intros t Ht. cbn. now rewrite lookup_insert_ne. }
    eexists. split; [cbn; apply lookup_insert_eq|].
    cbn [matchesCondition]. split; [now symmetry|].
    split; [reflexivity | discriminate].
Qed.

Lemma entered_mono (owningThread : N) (selfId : Z) (index : nat)
  (eventName : string) (evs evs' evs'' : list (CallEvent World))
  (h h' : Handler) :
  entered owningThread selfId index eventName evs h h' ->
  entered owningThread selfId index eventName (evs' ++ evs ++ evs'') h h'.
Proof.
  intros (He & Hl & Hf & Ho & pt & Hpt & Hn & Hk & Hs).
  split; [exact He|]. split; [exact Hl|]. split; [exact Hf|].
  split; [exact Ho|].
  exists pt. split; [exact Hpt|]. split; [exact Hn|]. split; [exact Hk|].
  intros Ht. destruct (Hs Ht) as (m & e & w & Hm & Hin & Hrest).
  exists m, e, w. split; [exact Hm|]. split; [|exact Hrest].
  apply elem_of_app. right. apply elem_of_app. now left.
Qed.

(** The enter pass: its calls are those of the handlers it ran over, in
    their positions; the name it ends with is the caller's name as those
    calls left it; and when no exception leaves it, every handler holds
    the entry that its filter, applied to the name the handler was reached
    with, asks for. *)
Lemma HandleEnterFrom_spec (hk : Hook) (owningThread : N) (selfId : Z)
  (hs : list Handler) :
  forall (index : nat) (eventName : string) (env : Env World)
    (hs' : list Handler) (eventName' : string) (env' : Env World)
    (thrown : option string),
  HandleEnterFrom hk owningThread selfId index hs eventName env
    = (hs', eventName', env', thrown) ->
  exists evs,
    callLog env' = callLog env ++ evs /\
    taskQueue env' = taskQueue env /\
    poolPushes env' = poolPushes env /\
    Forall (enterCall owningThread) evs /\
    length hs' = length hs /\
    Forall (fun e => index <= ev_handler e < index + length hs) evs /\
    eventName' = nameReached hk eventName (index + length hs) evs /\
    (thrown = None ->
     forall i h h',
       hs !! i = Some h -> hs' !! i = Some h' ->
       entered owningThread selfId (index + i)
         (nameReached hk eventName (index + i) evs) evs h h').
Proof.
  induction hs as [|h hs IH];
    intros index eventName env hs' eventName' env' thrown.
  - cbn [HandleEnterFrom]. intros [= <- <- <- _].
    exists []. rewrite app_nil_r.
    split; [reflexivity|]. split; [reflexivity|]. split; [reflexivity|].
    split; [constructor|]. split; [reflexivity|].
    split; [constructor|]. split; [reflexivity|].
    intros _ j h0 h0' Hj. discriminate.
  - cbn [HandleEnterFrom].
    destruct (HandleEnterBody hk owningThread selfId index h eventName env)
      as [[[h1 n1] env1] thrown1] eqn:Hbody.
    apply HandleEnterBody_spec in Hbody
      as (evs1 & Hlog1 & Hq1 & Hp1 & Hc1 & Hidx1 & Hent1 & Hname1).
    assert (forall b, index < b -> Forall (fun e => ev_handler e < b) evs1)
      as Hlt1.
    { intros b Hb. eapply Forall_impl; [exact Hidx1|].
      intros e He. cbn beta in He. lia. }
    assert (Forall (fun e => index <= ev_handler e) evs1) as Hge1.
    { eapply Forall_impl; [exact Hidx1|]. intros e He. cbn beta in He. lia. }
    destruct thrown1 as [what|].
    + intros [= <- <- <- <-].
      exists evs1.
      split; [assumption|]. split; [assumption|]. split; [assumption|].
      split; [assumption|]. split; [reflexivity|].
      split.
      { eapply Forall_impl; [exact Hidx1|].
        intros e He. cbn beta in He. cbn [length]. lia. }
      split; [|discriminate].
      rewrite Hname1. apply nameReached_bound; apply Hlt1; cbn [length]; lia.
    + destruct (HandleEnterFrom hk owningThread selfId (S index) hs n1 env1)
        as [[[hs2 n2] env2] thrown2] eqn:Hrest.
      apply IH in Hrest
        as (evs2 & Hlog2 & Hq2 & Hp2 & Hc2 & Hlen & Hb2 & Hname2 & Hent2).
      intros [= <- <- <- <-].
      exists (evs1 ++ evs2).
      split; [rewrite Hlog2, Hlog1; now rewrite app_assoc|].
      split; [congruence|]. split; [congruence|].
      split; [now apply Forall_app|].
      split; [cbn; now rewrite Hlen|].
      split.
      { apply Forall_app. split.
        - eapply Forall_impl; [exact Hidx1|].
          intros e He. cbn beta in He. cbn [length]. lia.
        - eapply Forall_impl; [exact Hb2|].
          intros e He. cbn beta in He. cbn [length]. lia. }
      split.
      { rewrite nameReached_app.
        rewrite (nameReached_bound hk (index + length (h :: hs)) (S index)
                   evs1 eventName)
          by (apply Hlt1; cbn [length]; lia).
        rewrite <- Hname1.
        replace (index + length (h :: hs)) with (S index + length hs)
          by (cbn [length]; lia).
        exact Hname2. }
      intros Hnone [|i] h0 h0' Hi Hi'; cbn in Hi, Hi'.
      * injection Hi as <-. injection Hi' as <-.
        rewrite Nat.add_0_r.
        rewrite nameReached_before.
        2:{ apply Forall_app. split; [exact Hge1|].
            eapply Forall_impl; [exact Hb2|].
            intros e He. cbn beta in He. lia. }
        apply (entered_mono _ _ _ _ evs1 [] evs2) in Hent1.
        exact Hent1.
      * specialize (Hent2 Hnone i h0 h0' Hi Hi').
        replace (index + S i) with (S index + i) by lia.
        rewrite nameReached_app.
        rewrite (nameReached_bound hk (S index + i) (S index) evs1 eventName)
          by (apply Hlt1; lia).
        rewrite <- Hname1.
        apply (entered_mono _ _ _ _ evs2 evs1 []) in Hent2.
        now rewrite app_nil_r in Hent2.
Qed.

Lemma HandleLeaveBody_spec (hk : Hook) (owningThread : N) (succeeded : bool)
  (index : nat) (h : Handler) (env : Env World)
  (h' : Handler) (env' : Env World) (thrown : option string) :
  HandleLeaveBody hk owningThread succeeded index h env
    = (h', env', thrown) ->
  exists evs,
    callLog env' = callLog env ++ evs /\
    taskQueue env' = taskQueue env /\
    poolPushes env' = poolPushes env /\
    Forall (leaveCall owningThread index h) evs /\
    (thrown = None -> left owningThread index evs h h').
Proof.
  unfold HandleLeaveBody.
  destruct (perThread h !! owningThread) as [pt|] eqn:Hpt.
  2:{ intros [= <- <- <-]. exists []. rewrite app_nil_r.
      do 4 (split; [reflexivity || constructor|]). discriminate. }
  destruct (matchesCondition pt) eqn:Hflag; cbn [negb].
  2:{ intros [= <- <- <-]. exists []. rewrite app_nil_r.
      do 4 (split; [reflexivity || constructor|]).
      intros _. split; [reflexivity|]. split; [reflexivity|].
      split; [now repeat split|]. split; [reflexivity|].
      exists pt. rewrite Hflag.
      split; [exact Hpt|]. split; [exact Hpt | discriminate]. }
  destruct (PrepareContext_frame pt env) as (Hw & Hq & Hp & Hl).
  pose proof (PrepareContext_storage pt env) as Hsto.
  destruct (PrepareContext pt env) as [p env1]. cbn [fst snd] in *.
  unfold Call.
  set (p1 := match succeededVariableName hk with
             | Some name => _
             | None => p
             end).
  assert (p_storage p1 = p_storage p) as Hp1
    by (subst p1; now destruct (succeededVariableName hk)).
  set (r := CallHandler _ _ _ _).
  assert (leaveCall owningThread index h
            (mkCallEvent OnLeave index owningThread (props (p_context p1))
               (entries (p_storage p1)) r)) as Hev.
  { split; [reflexivity|]. split; [reflexivity|]. split; [reflexivity|].
    exists pt. split; [exact Hpt|]. split; [assumption|].
    split.
    - intros m Hm. cbn [ev_entries]. now rewrite Hp1, (Hsto m Hm).
    - exists (world env1). reflexivity. }
  destruct (r_thrown r) as [what|].
  - intros [= <- <- <-]. eexists. cbn [callLog taskQueue poolPushes].
    split; [rewrite Hl; reflexivity|]. split; [assumption|].
    split; [assumption|].
    split; [constructor; [exact Hev | constructor] | discriminate].
  - intros [= <- <- <-]. eexists. cbn [callLog taskQueue poolPushes].
    split; [rewrite Hl; reflexivity|]. split; [assumption|].
    split; [assumption|].
    split; [constructor; [exact Hev | constructor]|].
    intros _. split; [reflexivity|]. split; [reflexivity|].
    split; [now repeat split|].
    split; [intros t Ht; cbn; now rewrite lookup_delete_ne|].
    exists pt. split; [exact Hpt|]. rewrite Hflag.
    split; [cbn; apply lookup_delete_eq|].
    intros _. eexists. split; [|exact Hev].
    apply list_elem_of_singleton. reflexivity.
Qed.

Lemma left_mono (owningThread : N) (index : nat)
  (evs evs' evs'' : list (CallEvent World)) (h h' : Handler) :
  left owningThread index evs h h' ->
  left owningThread index (evs' ++ evs ++ evs'') h h'.
Proof.
  intros (He & Hl & Hf & Ho & pt & Hpt & Hgone & Hcall).
  split; [exact He|]. split; [exact Hl|]. split; [exact Hf|].
  split; [exact Ho|].
  exists pt. split; [exact Hpt|]. split; [exact Hgone|].
  intros Ht. destruct (Hcall Ht) as (e & Hin & Hcalled).
  exists e. split; [|exact Hcalled].
  apply elem_of_app. right. apply elem_of_app. now left.
Qed.

Lemma HandleLeaveFrom_spec (hk : Hook) (owningThread : N) (succeeded : bool)
  (hs : list Handler) :
  forall (index : nat) (env : Env World) (hs' : list Handler)
    (env' : Env World) (thrown : option string),
  HandleLeaveFrom hk owningThread succeeded index hs env
    = (hs', env', thrown) ->
  exists evs,
    callLog env' = callLog env ++ evs /\
    taskQueue env' = taskQueue env /\
    poolPushes env' = poolPushes env /\
    length hs' = length hs /\
    Forall (fun e => exists i h,
              hs !! i = Some h /\ leaveCall owningThread (index + i) h e)
      evs /\
    (thrown = None ->
     forall i h h',
       hs !! i = Some h -> hs' !! i = Some h' ->
       left owningThread (index + i) evs h h').
Proof.
  induction hs as [|h hs IH]; intros index env hs' env' thrown.
  - cbn [HandleLeaveFrom]. intros [= <- <- <-].
    exists []. rewrite app_nil_r.
    do 5 (split; [reflexivity || constructor|]).
    intros _ j h0 h0' Hj. discriminate.
  - cbn [HandleLeaveFrom].
    destruct (HandleLeaveBody hk owningThread succeeded index h env)
      as [[h1 env1] [what|]] eqn:Hbody;
      apply HandleLeaveBody_spec in Hbody
        as (evs1 & Hlog1 & Hq1 & Hp1 & Hc1 & Hleft1).
    + intros [= <- <- <-]. exists evs1.
      split; [assumption|]. split; [assumption|]. split; [assumption|].
      split; [reflexivity|]. split; [|discriminate].
      eapply Forall_impl; [exact Hc1|].
      intros e He. exists 0, h. rewrite Nat.add_0_r. now split.
    + destruct (HandleLeaveFrom hk owningThread succeeded (S index) hs env1)
        as [[hs2 env2] thrown2] eqn:Hrest.
      apply IH in Hrest as (evs2 & Hlog2 & Hq2 & Hp2 & Hlen & Hc2 & Hleft2).
      intros [= <- <- <-]. exists (evs1 ++ evs2).
      split; [rewrite Hlog2, Hlog1; now rewrite app_assoc|].
      split; [congruence|]. split; [congruence|].
      split; [cbn; now rewrite Hlen|].
      split.
      * apply Forall_app. split.
        -- eapply Forall_impl; [exact Hc1|].
           intros e He. exists 0, h. rewrite Nat.add_0_r. now split.
        -- eapply Forall_impl; [exact Hc2|].
           intros e (i & h0 & Hi & He). exists (S i), h0.
           split; [exact Hi|].
           now replace (index + S i) with (S index + i) by lia.
      * intros Hnone [|i] h0 h0' Hi Hi'; cbn in Hi, Hi'.
        -- injection Hi as <-. injection Hi' as <-.
           rewrite Nat.add_0_r.
           apply (left_mono _ _ evs1 [] evs2). now apply Hleft1.
        -- replace (index + S i) with (S index + i) by lia.
           pose proof (left_mono _ _ evs2 evs1 [] _ _
                         (Hleft2 Hnone i h0 h0' Hi Hi')) as Hleft.
           now rewrite app_nil_r in Hleft.
Qed.

(** [Leave] of a thread in progress on a blocking hook is one round trip
    that unmarks the thread and runs the pass over all handlers. *)
Lemma Leave_inProgress (hk : Hook) (owningThread : N) (succeeded : bool)
  (env : Env World) :
  fireAndForget hk = false ->
  owningThread ∈ inProgressThreads hk ->
  let hkL := setInProgress hk (inProgressThreads hk ∖ {[owningThread]}) in
  let '(hs', env', thrown) :=
    HandleLeaveFrom hkL owningThread succeeded 0 (handlers hk)
      (PoolPush env) in
  Leave hk owningThread succeeded env =
  (setHandlers hkL hs', reportLeave thrown env').
Proof.
  intros Hff Hin hkL. unfold Leave, HandleLeave. rewrite Hff.
  rewrite bool_decide_eq_true_2 by assumption. cbn [negb].
  fold hkL. change (handlers hkL) with (handlers hk).
  destruct (HandleLeaveFrom _ _ _ _ _ _) as [[hs' env'] [what|]];
    reflexivity.
Qed.









End Entries.


(** What the pair leaves behind in the matched run: the leave callback saw
    the entry the enter callback had stored, and no entry remains. *)
Example demoMatched_run :
  ev_entries <$> callLog demoLeaveMatched.2
    = [[]; [(JsString "key", JsString "value")]] /\
  perThread <$> handlers demoLeaveMatched.1 = [∅] /\
  taskQueue demoLeaveMatched.2 = [].
Proof. vm_compute. repeat split. Qed.


(** The entry that outlived [Leave] is reused by the next [Enter] of the
    thread, and its storage is emptied first: the enter callbacks of the
    second [Enter] are called on empty storages, and the storage of the
    second handler holds one entry afterwards, not two. *)
Example demoLeftover_run :
  (fun e => (ev_phase e, ev_handler e, ev_entries e))
    <$> drop (length (callLog demoLeaveLeaveThrows.2))
          (callLog demoEnterAgain.2)
    = [(OnEnter, 0, []); (OnEnter, 1, [])] /\
  (fun h => (fun pt => entries <$> storage pt) <$> perThread h !! 1%N)
    <$> handlers demoEnterAgain.1.1
    = [Some (Some []);
       Some (Some [(JsString "key", JsString "value")])].
Proof. vm_compute. repeat split. Qed.



(** The run of the witness: the flags after [Enter] follow the names the
    handlers were reached with (["A"], ["B"], ["C"]), not the caller's
    name, and after [Leave] only the entry of the third handler is left. *)
Example demoBCA_run :
  (fun h => matchesCondition <$> perThread h !! 7%N)
    <$> handlers demoEnterBCA.1.1
    = [Some true; Some true; Some false] /\
  (fun h => matchesCondition <$> perThread h !! 7%N)
    <$> handlers demoLeaveBCA.1
    = [None; None; Some false] /\
  demoEnterBCA.1.2 = "C".
Proof. vm_compute. repeat split. Qed.

(** ** The callback registry *)

Example demoRegistry_built :
  match On (E := demoEngine) "tick" (JsFunctionRef 12) EventsGlobalState_new
  with
  | Ok g => Once (E := demoEngine) "tick" (JsFunctionRef 11) g
  | Throw what => Throw what
  end = Ok demoRegistry.
Proof. vm_compute. reflexivity. Qed.


Section Registry.
Context {E : ScriptEngine}.

Lemma CallOne_log (f : JsValue) (arguments : list JsValue)
  (g : EventsGlobalState) (js : Script World)
  (g' : EventsGlobalState) (js' : Script World) (thrown : option string) :
  CallOne f arguments g js = (g', js', thrown) ->
  invocations js' =
  invocations js ++
  [mkInvocation f arguments (callbacks g) (callbacksOnce g)].
Proof.
  unfold CallOne.
  destruct (CallCallback f arguments (script_world js)) as [acts w].
  destruct (RunActions acts g) as [g1 thrown1].
  now intros [= _ <- _].
Qed.

(** The loop over a snapshot calls its callbacks in order, all of them
    unless one throws, and the first call sees the registry as it was
    handed to the loop. *)
Lemma CallEach_spec (arguments : list JsValue) (snapshot : list JsValue) :
  forall (g : EventsGlobalState) (js : Script World)
    (g' : EventsGlobalState) (js' : Script World) (thrown : option string),
  CallEach snapshot arguments g js = (g', js', thrown) ->
  exists invs,
    invocations js' = invocations js ++ invs /\
    (inv_callee <$> invs) `prefix_of` snapshot /\
    (thrown = None -> inv_callee <$> invs = snapshot) /\
    (snapshot <> [] -> invs <> []) /\
    (invs = [] -> thrown = None) /\
    (forall inv, head invs = Some inv ->
       inv_callbacks inv = callbacks g /\
       inv_callbacksOnce inv = callbacksOnce g).
Proof.
  induction snapshot as [|f rest IH]; intros g js g' js' thrown.
  - cbn [CallEach]. intros [= <- <- <-]. exists [].
    rewrite app_nil_r. split; [reflexivity|]. split; [reflexivity|].
    split; [reflexivity|]. split; [congruence|]. split; [reflexivity|].
    discriminate.
  - cbn [CallEach].
    destruct (CallOne f arguments g js) as [[g1 js1] [what|]] eqn:Hone;
      pose proof (CallOne_log _ _ _ _ _ _ _ Hone) as Hlog1.
    + intros [= <- <- <-]. eexists [_].
      split; [exact Hlog1|].
      split; [exists rest; reflexivity|].
      split; [discriminate|]. split; [discriminate|]. split; [discriminate|].
      intros inv [= <-]. now split.
    + intros Hrest.
      apply IH in Hrest as (invs & Hlog & Hpre & Hall & _ & _ & _).
      eexists (_ :: invs).
      split; [rewrite Hlog, Hlog1, <- app_assoc; reflexivity|].
      split; [cbn; now apply prefix_cons|].
      split; [intros Hnone; cbn; now rewrite (Hall Hnone)|].
      split; [discriminate|]. split; [discriminate|].
      intros inv [= <-]. now split.
Qed.


End Registry.


Section RegistryInvariants.
Context {E : ScriptEngine}.

Lemma push_back_other (m : Callbacks) (eventName other : string)
  (callback : JsValue) :
  other <> eventName ->
  push_back m eventName callback !! other = m !! other.
Proof. intros H. unfold push_back. now rewrite lookup_insert_ne. Qed.

Lemma push_back_same (m : Callbacks) (eventName : string)
  (callback : JsValue) :
  push_back m eventName callback !! eventName
    = Some (default [] (m !! eventName) ++ [callback]).
Proof. unfold push_back. apply lookup_insert_eq. Qed.

Lemma AddCallback_Ok (eventName : string) (callback : JsValue)
  (isOnce : bool) (g g' : EventsGlobalState) :
  AddCallback eventName callback isOnce g = Ok g' ->
  eventName ∈ events /\
  g' = if isOnce
       then mkEventsGlobalState (callbacks g)
              (push_back (callbacksOnce g) eventName callback)
              (sendAnimationEvent g) (sendPapyrusEvent g)
       else mkEventsGlobalState
              (push_back (callbacks g) eventName callback)
              (callbacksOnce g) (sendAnimationEvent g) (sendPapyrusEvent g).
Proof.
  unfold AddCallback.
  destruct (bool_decide (eventName ∈ events)) eqn:Hin; cbn [negb];
    [|discriminate].
  apply bool_decide_eq_true in Hin.
  destruct isOnce; intros [= <-]; now split.
Qed.

Lemma AddCallback_registryOk (eventName : string) (callback : JsValue)
  (isOnce : bool) (g g' : EventsGlobalState) :
  AddCallback eventName callback isOnce g = Ok g' ->
  registryOk g -> registryOk g'.
Proof.
  intros Hadd Hok other Hother.
  apply AddCallback_Ok in Hadd as [Hin ->].
  assert (other <> eventName) as Hne by congruence.
  destruct (Hok other Hother) as [H1 H2].
  destruct isOnce; split; cbn [callbacks callbacksOnce];
    rewrite ?push_back_other by assumption; assumption.
Qed.

Lemma RunActions_registryOk (acts : list Action) :
  forall (g g' : EventsGlobalState) (thrown : option string),
  RunActions acts g = (g', thrown) -> registryOk g -> registryOk g'.
Proof.
  induction acts as [|a acts IH]; intros g g' thrown; cbn [RunActions].
  - now intros [= <- _].
  - destruct a as [n cb|n cb|what].
    + unfold On. destruct (AddCallback n cb false g) as [g1|what] eqn:Hadd.
      * intros Hrun Hok. eapply IH; [exact Hrun|].
        eapply AddCallback_registryOk; eassumption.
      * now intros [= <- _].
    + unfold Once. destruct (AddCallback n cb true g) as [g1|what] eqn:Hadd.
      * intros Hrun Hok. eapply IH; [exact Hrun|].
        eapply AddCallback_registryOk; eassumption.
      * now intros [= <- _].
    + now intros [= <- _].
Qed.

Lemma CallEach_registryOk (arguments : list JsValue)
  (snapshot : list JsValue) :
  forall (g : EventsGlobalState) (js : Script World)
    (g' : EventsGlobalState) (js' : Script World) (thrown : option string),
  CallEach snapshot arguments g js = (g', js', thrown) ->
  registryOk g -> registryOk g'.
Proof.
  induction snapshot as [|f rest IH]; intros g js g' js' thrown;
    cbn [CallEach].
  - now intros [= <- _ _].
  - unfold CallOne.
    destruct (CallCallback f arguments (script_world js)) as [acts w].
    destruct (RunActions acts g) as [g1 [what|]] eqn:Hrun.
    + intros [= <- _ _] Hok. eapply RunActions_registryOk; eassumption.
    + intros Hrest Hok. eapply IH; [exact Hrest|].
      eapply RunActions_registryOk; eassumption.
Qed.

Lemma clearedOnce_registryOk (g : EventsGlobalState) (eventName : string) :
  registryOk g -> registryOk (clearedOnce g eventName).
Proof.
  intros Hok other Hother. destruct (Hok other Hother) as [H1 H2].
  split; [exact H1|]. cbn [callbacksOnce clearedOnce].
  destruct (decide (eventName = other)) as [->|Hne].
  - now rewrite lookup_insert_eq.
  - now rewrite lookup_insert_ne.
Qed.

Lemma SendEvent_registryOk (eventName : string) (arguments : list JsValue)
  (g : EventsGlobalState) (js : Script World)
  (g' : EventsGlobalState) (js' : Script World) (thrown : option string) :
  SendEvent eventName arguments g js = (g', js', thrown) ->
  registryOk g -> registryOk g'.
Proof.
  unfold SendEvent, CallCalbacks. intros Hsend Hok.
  destruct (CallEach (default [] (callbacks g !! eventName)) arguments g js)
    as [[g1 js1] [what|]] eqn:HP.
  - injection Hsend as <- _ _. eapply CallEach_registryOk; eassumption.
  - eapply CallEach_registryOk; [exact Hsend|].
    apply (clearedOnce_registryOk g1 eventName).
    eapply CallEach_registryOk; eassumption.
Qed.

Lemma Reachable_registryOk (g : EventsGlobalState) :
  Reachable g -> registryOk g.
Proof.
  induction 1 as [|g n cb o g' _ IH Hadd|g n args js g' js' thr _ IH Hsend
                  |g _ _].
  - intros other _. now split.
  - eapply AddCallback_registryOk; eassumption.
  - eapply SendEvent_registryOk; eassumption.
  - intros other _. now split.
Qed.

Lemma SendEvent_silent (eventName : string) (arguments : list JsValue)
  (g : EventsGlobalState) (js : Script World) :
  silent g eventName ->
  SendEvent eventName arguments g js = (clearedOnce g eventName, js, None).
Proof.
  intros [H1 H2]. unfold SendEvent, CallCalbacks. rewrite H1.
  cbn [CallEach]. now rewrite H2.
Qed.

(** C10. [SendEvent] accepts every name.  For a name without registered
    callbacks, and on a reachable registry for every name outside the set
    that [on] and [once] accept, it calls nothing and returns without
    exception; all it does is leave an empty one-shot list under that
    name.  And whenever [SendEvent] ends by exception, it had called a
    callback: it raises none of its own. *)
Theorem SendEvent_unvalidated :
  (forall eventName arguments g js,
     silent g eventName ->
     SendEvent eventName arguments g js
       = (clearedOnce g eventName, js, None)) /\
  (forall eventName arguments g js,
     Reachable g -> eventName ∉ events ->
     SendEvent eventName arguments g js
       = (clearedOnce g eventName, js, None)) /\
  (forall eventName arguments g js g' js' what,
     SendEvent eventName arguments g js = (g', js', Some what) ->
     length (invocations js) < length (invocations js')).
Proof.
  split; [exact SendEvent_silent|]. split.
  - intros eventName arguments g js Hreach Hout.
    apply SendEvent_silent. now apply Reachable_registryOk.
  - intros eventName arguments g js g' js' what. unfold SendEvent, CallCalbacks.
    destruct (CallEach (default [] (callbacks g !! eventName)) arguments g js)
      as [[g1 js1] [what1|]] eqn:HP.
    + intros [= <- <- <-].
      apply CallEach_spec in HP as (invs & Hlog & _ & _ & _ & Hnil & _).
      rewrite Hlog, length_app.
      destruct invs; [now specialize (Hnil eq_refl) | cbn; lia].
    + intros HO.
      apply CallEach_spec in HP as (invsP & HlogP & _).
      apply CallEach_spec in HO as (invs & Hlog & _ & _ & _ & Hnil & _).
      rewrite Hlog, HlogP, !length_app.
      destruct invs; [now specialize (Hnil eq_refl) | cbn; lia].
Qed.

End RegistryInvariants.

Lemma SendEvent_unvalidated_witness :
  SendEvent (E := demoEngine) "noSuchEvent" [JsNumber 1%float]
    demoSendTick.1.1 demoScript
  = (clearedOnce demoSendTick.1.1 "noSuchEvent", demoScript, None) /\
  SendEvent (E := demoEngine) "update" [] demoRegistry demoScript
  = (clearedOnce demoRegistry "update", demoScript, None) /\
  length (invocations demoScript) < length (invocations demoSendThrow.1.2).
Proof.
  destruct (SendEvent_unvalidated (E := demoEngine)) as (H1 & H2 & H3).
  split; [|split].
  - apply H2.
    + apply (Reachable_SendEvent (E := demoEngine) demoRegistry "tick" []
               demoScript demoSendTick.1.1 demoSendTick.1.2 demoSendTick.2).
      * apply (Reachable_AddCallback (E := demoEngine)
                 (mkEventsGlobalState {["tick" := [JsFunctionRef 12]]} ∅
                    (sendAnimationEvent EventsGlobalState_new)
                    (sendPapyrusEvent EventsGlobalState_new))
                 "tick" (JsFunctionRef 11) true).
        -- apply (Reachable_AddCallback (E := demoEngine)
                    EventsGlobalState_new "tick" (JsFunctionRef 12) false).
           ++ apply Reachable_new.
           ++ vm_compute. reflexivity.
        -- vm_compute. reflexivity.
      * vm_compute. reflexivity.
    + apply (bool_decide_eq_false_1 ("noSuchEvent" ∈ events)).
      vm_compute. reflexivity.
  - apply H1. split; vm_compute; reflexivity.
  - apply (H3 "tick" [] demoRegistryThrow demoScript demoSendThrow.1.1
             demoSendThrow.1.2 "Error: boom").
    vm_compute. reflexivity.
Defined.

Section OneShot.
Context {E : ScriptEngine}.

Lemma tick_event : bool_decide ("tick" ∈ events) = true.
Proof. vm_compute. reflexivity. Qed.

Lemma RunActions_others (cb : JsValue) (acts : list Action) :
  Forall (registersOther cb) acts ->
  forall (g g' : EventsGlobalState) (thrown : option string),
  RunActions acts g = (g', thrown) ->
  callbacks g' = callbacks g /\ (onceFree cb g -> onceFree cb g').
Proof.
  induction 1 as [|a acts Ha _ IH]; intros g g' thrown; cbn [RunActions].
  - now intros [= <- _].
  - destruct a as [n f|n f|what]; [destruct Ha| |now intros [= <- _]].
    intros Hrun. unfold Once in Hrun.
    remember (AddCallback n f true g) as r eqn:Hadd.
    destruct r as [g1|what].
    2:{ injection Hrun as <- _. split; [reflexivity | exact (fun H => H)]. }
    symmetry in Hadd. apply AddCallback_Ok in Hadd as [_ ->].
    apply IH in Hrun as [Hcb Hfree].
    split; [exact Hcb|].
    intros Hg. apply Hfree. intros other. cbn [callbacksOnce].
    destruct (decide (other = n)) as [->|Hne].
    + rewrite push_back_same. cbn. apply Forall_app. split; [apply Hg|].
      constructor; [exact Ha | constructor].
    + rewrite push_back_other by assumption. apply Hg.
Qed.

(** C5. [once("tick", cb)] on a new registry, then two [SendEvent]s of
    ["tick"], for a callback [cb] that registers at most one-shot callbacks
    other than itself (it may also throw).  The first [SendEvent] calls
    [cb] and nothing else, whatever [cb] registered.  The second calls only
    callbacks that [cb] had registered for ["tick"], in order, so [cb]
    itself was called exactly once.  When [cb] calls [once("tick", cb2)],
    the first [SendEvent] returns normally with [cb2] waiting in the
    one-shot list, and the second calls [cb2]. *)
Theorem Once_fires_once (cb : JsValue) (w : World)
  (g2 g3 : EventsGlobalState) (js2 js3 : Script World)
  (thrown2 thrown3 : option string) :
  Forall (registersOther cb) (CallCallback cb [] w).1 ->
  let g1 :=
    mkEventsGlobalState ∅ {["tick" := [cb]]}
      (sendAnimationEvent EventsGlobalState_new)
      (sendPapyrusEvent EventsGlobalState_new) in
  Once "tick" cb EventsGlobalState_new = Ok g1 /\
  (SendEvent "tick" [] g1 (mkScript w []) = (g2, js2, thrown2) ->
   SendEvent "tick" [] g2 js2 = (g3, js3, thrown3) ->
   inv_callee <$> invocations js2 = [cb] /\
   exists later,
     inv_callee <$> invocations js3 = cb :: later /\
     (cb ∉ later) /\
     later `prefix_of` default [] (callbacksOnce g2 !! "tick") /\
     forall cb2,
       (CallCallback cb [] w).1 = [ActOnce "tick" cb2] ->
       thrown2 = None /\
       callbacksOnce g2 !! "tick" = Some [cb2] /\
       later = [cb2]).
Proof.
  intros Hcb g1. split.
  { unfold Once, AddCallback. rewrite tick_event. cbn [negb].
    unfold push_back. cbn [callbacksOnce EventsGlobalState_new].
    rewrite lookup_empty. cbn. now rewrite insert_empty. }
  subst g1. unfold SendEvent at 1. unfold CallCalbacks.
  cbn [callbacks callbacksOnce]. rewrite lookup_empty.
  cbn [from_option id CallEach callbacks callbacksOnce].
  rewrite lookup_singleton_eq.
  cbn [from_option id CallEach callbacks callbacksOnce
       sendAnimationEvent sendPapyrusEvent].
  unfold CallOne. cbn [script_world invocations].
  destruct (CallCallback cb [] w) as [acts w1] eqn:Hcall. cbn [fst] in Hcb.
  destruct (RunActions acts _) as [gA thrA] eqn:Hrun.
  intros H1.
  assert (g2 = gA /\ invocations js2 =
            [mkInvocation cb [] ∅ (<["tick" := []]> {["tick" := [cb]]})] /\
          thrown2 = thrA) as (-> & Hlog2 & ->).
  { destruct thrA; injection H1 as <- <- <-; now repeat split. }
  clear H1.
  pose proof (RunActions_others cb acts Hcb _ _ _ Hrun) as [HcbA HfreeA].
  cbn [callbacks callbacksOnce] in HcbA, HfreeA.
  assert (onceFree cb gA) as Hfree.
  { apply HfreeA. intros other. cbn [callbacksOnce].
    destruct (decide (other = "tick")) as [->|Hne].
    - rewrite lookup_insert_eq. constructor.
    - rewrite lookup_insert_ne by congruence.
      rewrite lookup_singleton_ne by congruence. constructor. }
  unfold SendEvent, CallCalbacks. rewrite HcbA, lookup_empty.
  cbn [from_option id CallEach].
  intros H2.
  apply CallEach_spec in H2 as (invs & Hlog3 & Hpre & Hall & Hne & _ & _).
  split; [now rewrite Hlog2|].
  exists (inv_callee <$> invs).
  split; [now rewrite Hlog3, Hlog2|].
  split.
  { intros Hin. destruct Hpre as [rest Hrest].
    specialize (Hfree "tick"). rewrite Hrest in Hfree.
    apply Forall_app in Hfree as [Hfree _].
    rewrite Forall_forall in Hfree. now apply (Hfree cb Hin). }
  split; [exact Hpre|].
  intros cb2 [= ->]. cbn [RunActions] in Hrun.
  unfold Once, AddCallback in Hrun. rewrite tick_event in Hrun.
  cbn [negb] in Hrun. injection Hrun as <- <-.
  cbn [callbacksOnce] in *. rewrite push_back_same in *.
  rewrite lookup_insert_eq in *. cbn [from_option id app] in *.
  split; [reflexivity|]. split; [reflexivity|].
  destruct Hpre as [rest Hrest].
  destruct invs as [|inv invs]; [now specialize (Hne ltac:(discriminate))|].
  cbn in Hrest. injection Hrest as -> Hnil.
  symmetry in Hnil. apply app_eq_nil in Hnil as [Hnil _].
  cbn. now rewrite Hnil.
Qed.

End OneShot.

Lemma Once_fires_once_witness :
  let first :=
    SendEvent (E := demoEngine) "tick" []
      (mkEventsGlobalState ∅ {["tick" := [JsFunctionRef 10]]}
         (sendAnimationEvent EventsGlobalState_new)
         (sendPapyrusEvent EventsGlobalState_new))
      (mkScript tt []) in
  let second := SendEvent (E := demoEngine) "tick" [] first.1.1 first.1.2 in
  Once (E := demoEngine) "tick" (JsFunctionRef 10) EventsGlobalState_new
    = Ok (mkEventsGlobalState ∅ {["tick" := [JsFunctionRef 10]]}
            (sendAnimationEvent EventsGlobalState_new)
            (sendPapyrusEvent EventsGlobalState_new)) /\
  inv_callee <$> invocations first.1.2 = [JsFunctionRef 10] /\
  exists later,
    inv_callee <$> invocations second.1.2 = JsFunctionRef 10 :: later /\
    later = [JsFunctionRef 11].
Proof.
  intros first second.
  destruct (Once_fires_once (E := demoEngine) (JsFunctionRef 10) tt
              first.1.1 second.1.1 first.1.2 second.1.2 first.2 second.2)
    as [Honce Hrun].
  { repeat constructor. discriminate. }
  split; [exact Honce|].
  destruct Hrun as (Hfirst & later & Hsecond & _ & _ & Hcb2).
  { vm_compute. reflexivity. }
  { vm_compute. reflexivity. }
  split; [exact Hfirst|].
  exists later. split; [exact Hsecond|].
  now destruct (Hcb2 (JsFunctionRef 11) eq_refl) as (_ & _ & ->).
Defined.

(** * Further properties *)

(** ** What Parse accepts, and what the patterns mean *)

Lemma append_nil_r (a : string) : a +:+ "" = a.
Proof.
  induction a as [|x a IH]; [reflexivity|].
  change (String x (a +:+ "") = String x a). now rewrite IH.
Qed.

Lemma length_append (a b : string) :
  String.length (a +:+ b) = String.length a + String.length b.
Proof.
  induction a as [|x a IH]; [reflexivity|].
  change (S (String.length (a +:+ b)) = S (String.length a + String.length b)).
  now rewrite IH.
Qed.

Lemma append_inv_length (a b u v : string) :
  a +:+ u = b +:+ v -> String.length a = String.length b -> a = b /\ u = v.
Proof.
  revert b. induction a as [|x a IH]; intros [|y b] H Hlen;
    try discriminate.
  - now split.
  - change (String x (a +:+ u) = String y (b +:+ v)) in H.
    injection H as -> H. injection Hlen as Hlen.
    destruct (IH b H Hlen) as [-> ->]. now split.
Qed.

Lemma find_Some_split (c : ascii) (s : string) (p : nat) :
  find c s = Some p ->
  exists X Y,
    s = X +:+ String c Y /\ String.length X = p /\ count c X = 0.
Proof.
  revert p. induction s as [|a s IH]; intros p; cbn [find]; [discriminate|].
  destruct (Ascii.eqb a c) eqn:Hac.
  - intros [= <-]. apply Ascii.eqb_eq in Hac as ->.
    exists "", s. now repeat split.
  - destruct (find c s) as [q|]; [|discriminate].
    intros [= <-]. destruct (IH q eq_refl) as (X & Y & -> & Hlen & Hcount).
    exists (String a X), Y. split; [reflexivity|].
    split; [cbn; now rewrite Hlen|]. cbn [count]. now rewrite Hac, Hcount.
Qed.

Lemma count_star_cons (b : string) : count star (String star b) = S (count star b).
Proof. cbn [count]. now rewrite Ascii.eqb_refl. Qed.

(** The three shapes of an accepted pattern string. *)
Lemma Parse_Ok_inv (s : string) (p : Pattern) :
  Parse s = Ok p ->
  (count star s = 0 /\ p = mkPattern Exact s) \/
  (exists X, s = String star X /\ count star X = 0 /\
             p = mkPattern EndsWith X) \/
  (exists X, s = X +:+ "*" /\ count star X = 0 /\ X <> "" /\
             p = mkPattern StartsWith X).
Proof.
  unfold Parse.
  destruct (Nat.eqb_spec (count star s) 0) as [H0|H0].
  { intros [= <-]. now left. }
  destruct (Nat.ltb_spec 1 (count star s)) as [|H1]; [discriminate|].
  assert (count star s = 1) as Hone by lia. clear H0 H1.
  destruct (bool_decide (find star s = Some 0)) eqn:Hfirst.
  - apply bool_decide_eq_true in Hfirst. intros [= <-]. right. left.
    destruct s as [|a s]; [discriminate|]. cbn [find] in Hfirst.
    destruct (Ascii.eqb a star) eqn:Ha.
    2:{ destruct (find star s); discriminate. }
    apply Ascii.eqb_eq in Ha as ->.
    rewrite count_star_cons in Hone. injection Hone as Hone.
    exists s. split; [reflexivity|]. split; [exact Hone|].
    cbn. now rewrite Nat.sub_0_r, substring_0_length.
  - apply bool_decide_eq_false in Hfirst.
    destruct (bool_decide (find star s = Some (String.length s - 1)))
      eqn:Hlast; [|discriminate].
    apply bool_decide_eq_true in Hlast. intros [= <-]. right. right.
    destruct (find_Some_split star s _ Hlast) as (X & Y & -> & Hlen & HX).
    rewrite length_append in Hlen. cbn [String.length] in Hlen.
    assert (Y = "") as -> by (destruct Y; [reflexivity | cbn in Hlen; lia]).
    exists X. split; [reflexivity|]. split; [exact HX|].
    split.
    + intros ->. apply Hfirst. reflexivity.
    + rewrite length_append. cbn [String.length].
      replace (String.length X + 1 - 1) with (String.length X) by lia.
      now rewrite substring_0_app.
Qed.

(** X1. The fragment of a parsed pattern holds no ['*']: what [Matches]
    compares names with is plain text. *)
Theorem Parse_fragment_plain (s : string) (p : Pattern) :
  Parse s = Ok p -> count star (str p) = 0.
Proof.
  intros H. apply Parse_Ok_inv in H
    as [[H ->]|[(X & _ & H & ->)|(X & _ & H & _ & ->)]]; exact H.
Qed.

Lemma Parse_fragment_plain_witness :
  count star (str (mkPattern StartsWith "Jump")) = 0.
Proof.
  apply (Parse_fragment_plain "Jump*" (mkPattern StartsWith "Jump")).
  reflexivity.
Defined.

(** X2. [Parse] is injective on the strings it accepts: two pattern
    strings that parse to the same pattern are the same string. *)
Theorem Parse_injective (s1 s2 : string) (p : Pattern) :
  Parse s1 = Ok p -> Parse s2 = Ok p -> s1 = s2.
Proof.
  intros H1 H2.
  apply Parse_Ok_inv in H1
    as [[_ ->]|[(X1 & -> & _ & ->)|(X1 & -> & _ & _ & ->)]];
    apply Parse_Ok_inv in H2
      as [[_ H2]|[(X2 & -> & _ & H2)|(X2 & -> & _ & _ & H2)]];
    congruence.
Qed.

Lemma Parse_injective_witness : "*Loop" = "*Loop".
Proof.
  apply (Parse_injective "*Loop" "*Loop" (mkPattern EndsWith "Loop"));
    reflexivity.
Defined.

Lemma ascii_compare_Eq (x y : ascii) :
  N.compare (N_of_ascii x) (N_of_ascii y) = Eq <-> x = y.
Proof.
  rewrite N.compare_eq_iff. split; [|now intros ->].
  intros H. rewrite <- (ascii_N_embedding x), <- (ascii_N_embedding y).
  now rewrite H.
Qed.

(** The length test and [memcmp] over the fragment, together: the
    fragment is a prefix of the buffer. *)
Lemma memcmp_prefix (X : string) :
  forall a,
    Nat.leb (String.length X) (String.length a) &&
    is_zero (memcmp a X (String.length X)) = true <->
    exists rest, a = X +:+ rest.
Proof.
  induction X as [|y X IH]; intros a.
  - split; [intros _; now exists a | intros _; now destruct a].
  - destruct a as [|x a].
    + cbn. split; [discriminate | intros [rest H]; discriminate].
    + cbn [String.length Nat.leb memcmp].
      destruct (N.compare (N_of_ascii x) (N_of_ascii y)) eqn:Hc.
      * apply ascii_compare_Eq in Hc as ->. rewrite IH. split.
        -- intros [rest ->]. now exists rest.
        -- intros [rest H].
           change (String y a = String y (X +:+ rest)) in H.
           injection H as ->. now exists rest.
      * split; [rewrite andb_false_r; discriminate|].
        intros [rest H]. change (String x a = String y (X +:+ rest)) in H.
        injection H as -> _.
        assert (N.compare (N_of_ascii y) (N_of_ascii y) = Eq) as Hr
          by now apply ascii_compare_Eq.
        congruence.
      * split; [rewrite andb_false_r; discriminate|].
        intros [rest H]. change (String x a = String y (X +:+ rest)) in H.
        injection H as -> _.
        assert (N.compare (N_of_ascii y) (N_of_ascii y) = Eq) as Hr
          by now apply ascii_compare_Eq.
        congruence.
Qed.

Lemma advance_app (pre X : string) :
  advance (String.length pre) (pre +:+ X) = X.
Proof.
  induction pre as [|x pre IH]; [now destruct X|].
  change (advance (String.length pre) (pre +:+ X) = X). exact IH.
Qed.

Lemma advance_split (k : nat) :
  forall a, k <= String.length a ->
    exists pre, a = pre +:+ advance k a /\ String.length pre = k.
Proof.
  induction k as [|k IH]; intros a Hk.
  - exists "". split; [now destruct a | reflexivity].
  - destruct a as [|x a]; [cbn in Hk; lia|].
    destruct (IH a) as (pre & Ha & Hlen); [cbn in Hk; lia|].
    exists (String x pre). split; [|cbn; now rewrite Hlen].
    cbn [advance].
    change (String x a = String x (pre +:+ advance k a)). now rewrite <- Ha.
Qed.

(** X3. What the three kinds of pattern accept: [Exact] the fragment
    itself, [StartsWith] the names that begin with the fragment,
    [EndsWith] the names that end with it, byte for byte. *)
Theorem PatternMatches_meaning (X name : string) :
  (PatternMatches (mkPattern Exact X) name = true <-> name = X) /\
  (PatternMatches (mkPattern StartsWith X) name = true <->
   exists rest, name = X +:+ rest) /\
  (PatternMatches (mkPattern EndsWith X) name = true <->
   exists pre, name = pre +:+ X).
Proof.
  unfold PatternMatches. cbn [type str].
  split; [apply String.eqb_eq|]. split; [apply memcmp_prefix|].
  split.
  - intros H.
    assert (String.length X <= String.length name) as Hle.
    { apply andb_true_iff in H as [H _]. now apply Nat.leb_le in H. }
    destruct (advance_split (String.length name - String.length X) name)
      as (pre & Hname & Hpre); [lia|].
    exists pre.
    set (suf := advance (String.length name - String.length X) name) in *.
    assert (String.length suf = String.length X) as Hsuf.
    { apply (f_equal String.length) in Hname.
      rewrite length_append in Hname. lia. }
    assert (Nat.leb (String.length X) (String.length suf) &&
            is_zero (memcmp suf X (String.length X)) = true) as Hp.
    { apply andb_true_iff in H as [_ H]. rewrite H, Hsuf.
      now rewrite Nat.leb_refl. }
    apply memcmp_prefix in Hp as [rest Hrest].
    assert (rest = "") as ->.
    { apply (f_equal String.length) in Hrest.
      rewrite length_append in Hrest. destruct rest; [reflexivity|].
      cbn in Hrest. lia. }
    rewrite append_nil_r in Hrest. now rewrite Hname, Hrest.
  - intros [pre ->]. rewrite length_append.
    replace (String.length pre + String.length X - String.length X)
      with (String.length pre) by lia.
    rewrite advance_app.
    assert (Nat.leb (String.length X) (String.length X) &&
            is_zero (memcmp X X (String.length X)) = true) as Hp.
    { apply memcmp_prefix. exists "". now rewrite append_nil_r. }
    apply andb_true_iff in Hp as [_ Hp]. rewrite Hp.
    rewrite andb_true_r. apply Nat.leb_le. lia.
Qed.

(** X4. The wildcard read end to end: a name matches the pattern parsed
    from [s] exactly when it is [s] itself, for an [s] without ['*'], or
    [s] with its ['*'] replaced by some text. *)
Theorem Parse_then_match (s name : string) (p : Pattern) :
  Parse s = Ok p ->
  (PatternMatches p name = true <-> globMatch s name).
Proof.
  intros H.
  destruct (PatternMatches_meaning (str p) name) as (HE & HS & HW).
  apply Parse_Ok_inv in H
    as [[H0 ->]|[(X & -> & HX & ->)|(X & -> & HX & Hne & ->)]];
    cbn [str] in *; unfold globMatch.
  - rewrite HE. split.
    + intros ->. now left.
    + intros [[_ ->]|(a & b & fill & Hs & _)]; [reflexivity|].
      rewrite Hs, count_app, count_star_cons in H0. lia.
  - rewrite HW. split.
    + intros [pre ->]. right. exists "", X, pre. now split.
    + intros [[Hc _]|(a & b & fill & Hs & ->)].
      { rewrite count_star_cons in Hc. discriminate. }
      destruct a as [|x a].
      * change (String star X = String star b) in Hs. injection Hs as ->.
        now exists fill.
      * change (String star X = String x (a +:+ String star b)) in Hs.
        injection Hs as _ ->.
        rewrite count_app, count_star_cons in HX. lia.
  - rewrite HS. split.
    + intros [rest ->]. right. exists X, "", rest.
      split; [reflexivity | now rewrite append_nil_r].
    + intros [[Hc _]|(a & b & fill & Hs & ->)].
      { rewrite count_app, HX in Hc. cbn in Hc. discriminate. }
      assert (count star a = 0 /\ count star b = 0) as [Ha Hb].
      { apply (f_equal (count star)) in Hs.
        rewrite !count_app, !count_star_cons, HX in Hs. cbn in Hs. lia. }
      assert (String.length X = String.length a) as Hlen.
      { pose proof (find_app_absent star X "" HX) as H1.
        pose proof (find_app_absent star a b Ha) as H2.
        change "*" with (String star "") in Hs. rewrite Hs in H1.
        congruence. }
      change "*" with (String star "") in Hs.
      apply append_inv_length in Hs as [-> [= <-]]; [|exact Hlen].
      exists fill. now rewrite append_nil_r.
Qed.

Lemma Parse_then_match_witness :
  PatternMatches (mkPattern StartsWith "Jump") "JumpUp" = true <->
  globMatch "Jump*" "JumpUp".
Proof.
  apply (Parse_then_match "Jump*" "JumpUp" (mkPattern StartsWith "Jump")).
  reflexivity.
Defined.

(** ** What the loops of dispatch keep *)

Section Dispatch.
Context {E : ScriptEngine}.

Lemma touchedOnly_refl (owningThread : N) (h : Handler) :
  touchedOnly owningThread h h.
Proof. now repeat split. Qed.

Lemma HandleEnterBody_touched (hk : Hook) (owningThread : N) (selfId : Z)
  (index : nat) (h : Handler) (eventName : string) (env : Env World)
  (h' : Handler) (eventName' : string) (env' : Env World)
  (thrown : option string) :
  HandleEnterBody hk owningThread selfId index h eventName env
    = (h', eventName', env', thrown) ->
  touchedOnly owningThread h h'.
Proof.
  intros H. apply HandleEnterBody_spec in H
    as (evs & _ & _ & _ & _ & _ & (He & Hl & Hf & Ho & _) & _).
  split; [exact (conj He (conj Hl Hf)) | exact Ho].
Qed.

Lemma HandleEnterFrom_touched (hk : Hook) (owningThread : N) (selfId : Z)
  (hs : list Handler) :
  forall (index : nat) (eventName : string) (env : Env World)
    (hs' : list Handler) (eventName' : string) (env' : Env World)
    (thrown : option string),
  HandleEnterFrom hk owningThread selfId index hs eventName env
    = (hs', eventName', env', thrown) ->
  Forall2 (touchedOnly owningThread) hs hs'.
Proof.
  induction hs as [|h hs IH];
    intros index eventName env hs' eventName' env' thrown;
    cbn [HandleEnterFrom].
  - intros [= <- _ _ _]. constructor.
  - destruct (HandleEnterBody hk owningThread selfId index h eventName env)
      as [[[h1 n1] env1] [what|]] eqn:Hbody;
      apply HandleEnterBody_touched in Hbody.
    + intros [= <- _ _ _]. constructor; [exact Hbody|].
      apply Forall2_same_length_lookup_2; [reflexivity|].
      intros i x y Hx Hy. rewrite Hx in Hy. injection Hy as <-.
      apply touchedOnly_refl.
    + destruct (HandleEnterFrom hk owningThread selfId (S index) hs n1 env1)
        as [[[hs2 n2] env2] thrown2] eqn:Hrest.
      intros [= <- _ _ _]. constructor; [exact Hbody|].
      eapply IH. exact Hrest.
Qed.

Lemma HandleLeaveBody_touched (hk : Hook) (owningThread : N)
  (succeeded : bool) (index : nat) (h : Handler) (env : Env World)
  (h' : Handler) (env' : Env World) (thrown : option string) :
  HandleLeaveBody hk owningThread succeeded index h env
    = (h', env', thrown) ->
  touchedOnly owningThread h h'.
Proof.
  unfold HandleLeaveBody.
  destruct (perThread h !! owningThread) as [pt|];
    [|intros [= <- _ _]; apply touchedOnly_refl].
  destruct (matchesCondition pt); cbn [negb];
    [|intros [= <- _ _]; apply touchedOnly_refl].
  destruct (PrepareContext pt env) as [p env1].
  destruct (Call _ _ _ _ _ _) as [[p2 env2] [what|]];
    intros [= <- _ _]; split; try (now repeat split);
    intros t Ht; cbn.
  - now rewrite lookup_insert_ne.
  - now rewrite lookup_delete_ne.
Qed.

Lemma HandleLeaveFrom_touched (hk : Hook) (owningThread : N)
  (succeeded : bool) (hs : list Handler) :
  forall (index : nat) (env : Env World) (hs' : list Handler)
    (env' : Env World) (thrown : option string),
  HandleLeaveFrom hk owningThread succeeded index hs env
    = (hs', env', thrown) ->
  Forall2 (touchedOnly owningThread) hs hs'.
Proof.
  induction hs as [|h hs IH]; intros index env hs' env' thrown;
    cbn [HandleLeaveFrom].
  - intros [= <- _ _]. constructor.
  - destruct (HandleLeaveBody hk owningThread succeeded index h env)
      as [[h1 env1] [what|]] eqn:Hbody;
      apply HandleLeaveBody_touched in Hbody.
    + intros [= <- _ _]. constructor; [exact Hbody|].
      apply Forall2_same_length_lookup_2; [reflexivity|].
      intros i x y Hx Hy. rewrite Hx in Hy. injection Hy as <-.
      apply touchedOnly_refl.
    + destruct (HandleLeaveFrom hk owningThread succeeded (S index) hs env1)
        as [[hs2 env2] thrown2] eqn:Hrest.
      intros [= <- _ _]. constructor; [exact Hbody|].
      eapply IH. exact Hrest.
Qed.

Lemma Forall2_touchedOnly_refl (owningThread : N) (hs : list Handler) :
  Forall2 (touchedOnly owningThread) hs hs.
Proof. induction hs; constructor; [apply touchedOnly_refl | assumption]. Qed.

(** The loops of [Enter] and [Leave] themselves neither add, remove nor
    reorder handlers, and touch only the entries of the calling thread.
    (A callback that calls the hook's [add] during a pass is outside the
    engine interface.) *)
Lemma Enter_keeps (hk : Hook) (owningThread : N) (selfId : Z)
  (eventName : string) (env : Env World) (hk1 : Hook) (eventName1 : string)
  (env1 : Env World) :
  Enter hk owningThread selfId eventName env = (hk1, eventName1, env1) ->
  hookName hk1 = hookName hk /\
  eventNameVariableName hk1 = eventNameVariableName hk /\
  succeededVariableName hk1 = succeededVariableName hk /\
  Forall2 (touchedOnly owningThread) (handlers hk) (handlers hk1).
Proof.
  unfold Enter.
  destruct (fireAndForget hk).
  { destruct (existsb _ _); intros [= <- _ _];
      repeat split; apply Forall2_touchedOnly_refl. }
  destruct (bool_decide (owningThread ∈ inProgressThreads hk)).
  { intros [= <- _ _]. repeat split; apply Forall2_touchedOnly_refl. }
  unfold HandleEnter. cbn [handlers setInProgress].
  destruct (HandleEnterFrom _ _ _ _ _ _ _) as [[[hs n] e] thr] eqn:Hpass.
  apply HandleEnterFrom_touched in Hpass.
  destruct thr; intros [= <- _ _]; now repeat split.
Qed.

Lemma Leave_keeps (hk : Hook) (owningThread : N) (succeeded : bool)
  (env : Env World) (hk1 : Hook) (env1 : Env World) :
  Leave hk owningThread succeeded env = (hk1, env1) ->
  hookName hk1 = hookName hk /\
  eventNameVariableName hk1 = eventNameVariableName hk /\
  succeededVariableName hk1 = succeededVariableName hk /\
  Forall2 (touchedOnly owningThread) (handlers hk) (handlers hk1).
Proof.
  unfold Leave.
  destruct (fireAndForget hk).
  { intros [= <- _]. repeat split; apply Forall2_touchedOnly_refl. }
  destruct (bool_decide (owningThread ∈ inProgressThreads hk)); cbn [negb].
  2:{ intros [= <- _]. repeat split; apply Forall2_touchedOnly_refl. }
  unfold HandleLeave. cbn [handlers setInProgress].
  destruct (HandleLeaveFrom _ _ _ _ _ _) as [[hs e] thr] eqn:Hpass.
  apply HandleLeaveFrom_touched in Hpass.
  destruct thr; intros [= <- _]; now repeat split.
Qed.

(** X6. The in-progress set of a blocking hook follows the calls, not the
    callbacks: [Enter] of an idle thread adds that thread and no other,
    the [Leave] that follows removes it again, also when handlers threw in
    between. *)
Theorem inProgress_bookkeeping (hk : Hook) (owningThread : N) (selfId : Z)
  (eventName : string) (succeeded : bool) (env : Env World)
  (hk1 : Hook) (eventName1 : string) (env1 : Env World)
  (hk2 : Hook) (env2 : Env World) :
  fireAndForget hk = false ->
  owningThread ∉ inProgressThreads hk ->
  Enter hk owningThread selfId eventName env = (hk1, eventName1, env1) ->
  Leave hk1 owningThread succeeded env1 = (hk2, env2) ->
  inProgressThreads hk1 = {[owningThread]} ∪ inProgressThreads hk /\
  inProgressThreads hk2 = inProgressThreads hk.
Proof.
  intros Hff Hnin HE HL.
  pose proof (Enter_idle hk owningThread selfId eventName env Hff Hnin) as HE'.
  cbv zeta in HE'.
  destruct (HandleEnterFrom _ _ _ _ _ _ _) as [[[hsE nE] envE] thrE].
  rewrite HE in HE'. injection HE' as -> _ ->.
  split; [reflexivity|].
  set (hk1 := setHandlers _ hsE) in *.
  assert (owningThread ∈ inProgressThreads hk1) as Hin1
    by (apply elem_of_union_l, elem_of_singleton_2; reflexivity).
  pose proof (Leave_inProgress hk1 owningThread succeeded
                (reportEnter hk thrE envE) Hff Hin1) as HL'.
  cbv zeta in HL'.
  destruct (HandleLeaveFrom _ _ _ _ _ _) as [[hsL envL] thrL].
  rewrite HL in HL'. injection HL' as -> _.
  cbn [inProgressThreads setHandlers setInProgress hk1].
  apply set_eq. intros t.
  rewrite elem_of_difference, elem_of_union, !elem_of_singleton.
  split; [intros [[->|H] Hne]; [congruence | exact H]|].
  intros H. split; [now right|]. intros ->. contradiction.
Qed.

(** X7. What a blocking [Enter] or [Leave] costs the executor, in every
    state and whatever the handlers do: exactly one round trip to the
    script thread, and at most one task, an error report, appended to the
    queue; nothing already queued is dropped or reordered. *)
Theorem executor_accounting (hk : Hook) (owningThread : N) :
  fireAndForget hk = false ->
  (forall selfId eventName env hk1 eventName1 env1,
     Enter hk owningThread selfId eventName env = (hk1, eventName1, env1) ->
     poolPushes env1 = S (poolPushes env) /\
     (taskQueue env1 = taskQueue env \/
      exists what, taskQueue env1 = taskQueue env ++ [TaskThrow what])) /\
  (forall succeeded env hk1 env1,
     Leave hk owningThread succeeded env = (hk1, env1) ->
     poolPushes env1 = S (poolPushes env) /\
     (taskQueue env1 = taskQueue env \/
      exists what, taskQueue env1 = taskQueue env ++ [TaskThrow what])).
Proof.
  intros Hff. split.
  - intros selfId eventName env hk1 eventName1 env1. unfold Enter.
    rewrite Hff.
    destruct (bool_decide (owningThread ∈ inProgressThreads hk)).
    { intros [= _ _ <-]. split; [reflexivity|]. right. now eexists. }
    unfold HandleEnter. cbn [handlers setInProgress].
    destruct (HandleEnterFrom _ _ _ _ _ _ _) as [[[hs n] e] thr] eqn:Hpass.
    apply HandleEnterFrom_spec in Hpass as (evs & _ & Hq & Hp & _).
    cbn [taskQueue poolPushes PoolPush] in Hq, Hp.
    destruct thr; intros [= _ _ <-]; cbn [taskQueue poolPushes AddTask];
      rewrite Hq, Hp; (split; [reflexivity|]);
      [right; now eexists | now left].
  - intros succeeded env hk1 env1. unfold Leave. rewrite Hff.
    destruct (bool_decide (owningThread ∈ inProgressThreads hk)); cbn [negb].
    2:{ intros [= _ <-]. split; [reflexivity|]. right. now eexists. }
    unfold HandleLeave. cbn [handlers setInProgress].
    destruct (HandleLeaveFrom _ _ _ _ _ _) as [[hs e] thr] eqn:Hpass.
    apply HandleLeaveFrom_spec in Hpass as (evs & _ & Hq & Hp & _).
    cbn [taskQueue poolPushes PoolPush] in Hq, Hp.
    destruct thr; intros [= _ <-]; cbn [taskQueue poolPushes AddTask];
      rewrite Hq, Hp; (split; [reflexivity|]);
      [right; now eexists | now left].
Qed.

End Dispatch.

(** ** Where a pass stops *)

Section Failures.
Context {E : ScriptEngine}.

Lemma thrownAfter_nameAfter (hk : Hook) (eventName : string)
  (r : JsCallResult World) (what : string) :
  thrownAfter hk r = Some what -> nameAfter hk eventName r = eventName.
Proof.
  unfold thrownAfter, nameAfter. destruct (r_thrown r); [reflexivity|].
  now destruct (to_std_string _).
Qed.

(** X8. An enter callback that throws, or that leaves something in the
    event-name property that does not convert to a string, ends the pass:
    the handlers registered after it are neither called nor touched, the
    caller gets back the event name as the earlier handlers left it, the
    thread stays in progress, and the exception is queued with the text
    " (while performing enter on '<hook>')" appended. *)
Theorem Enter_stops_at_failure (hk : Hook) (owningThread : N) (selfId : Z)
  (eventName : string) (env : Env World) (hs1 hs2 : list Handler)
  (h : Handler) (hs1' : list Handler) (eventName1 : string)
  (env1 : Env World) (h' : Handler) (eventName2 : string) (env2 : Env World)
  (thrown2 : option string) (ev : CallEvent World) (what : string) :
  fireAndForget hk = false ->
  owningThread ∉ inProgressThreads hk ->
  handlers hk = hs1 ++ h :: hs2 ->
  let hkP := setInProgress hk ({[owningThread]} ∪ inProgressThreads hk) in
  HandleEnterFrom hkP owningThread selfId 0 hs1 eventName (PoolPush env)
    = (hs1', eventName1, env1, None) ->
  Matches h selfId eventName1 = true ->
  HandleEnterBody hkP owningThread selfId (length hs1) h eventName1 env1
    = (h', eventName2, env2, thrown2) ->
  last (callLog env2) = Some ev ->
  thrownAfter hk (ev_result ev) = Some what ->
  callLog env2 = callLog env1 ++ [ev] /\
  Enter hk owningThread selfId eventName env =
  (setHandlers hkP (hs1' ++ h' :: hs2), eventName1,
   AddTask
     (TaskThrow
        (what +:+ " (while performing enter on '" +:+ hookName hk +:+ "')"))
     env2).
Proof.
  intros Hff Hnin Hhs hkP H1 Hm Hbody Hlast Hthrown.
  pose proof (Enter_idle hk owningThread selfId eventName env Hff Hnin) as HE.
  cbv zeta in HE. fold hkP in HE. rewrite Hhs in HE.
  rewrite HandleEnterFrom_app, H1 in HE.
  cbn [HandleEnterFrom Nat.add] in HE. rewrite Hbody in HE.
  rewrite (HandleEnterBody_matched hkP owningThread selfId (length hs1) h
             eventName1 env1 Hm) in Hbody.
  cbv zeta in Hbody. injection Hbody as <- <- <- <-.
  cbn [callLog] in Hlast. rewrite last_snoc in Hlast.
  injection Hlast as <-. cbn [ev_result callLog] in *.
  change (thrownAfter hkP) with (thrownAfter hk) in HE.
  rewrite Hthrown in HE.
  change (nameAfter hkP) with (nameAfter hk) in HE.
  rewrite (thrownAfter_nameAfter hk eventName1 _ what Hthrown) in HE.
  split; [reflexivity | exact HE].
Qed.

Lemma HandleLeaveFrom_app (hk : Hook) (owningThread : N) (succeeded : bool)
  (hs1 hs2 : list Handler) :
  forall (index : nat) (env : Env World),
  HandleLeaveFrom hk owningThread succeeded index (hs1 ++ hs2) env =
  match HandleLeaveFrom hk owningThread succeeded index hs1 env with
  | (hs1', env1, Some what) => (hs1' ++ hs2, env1, Some what)
  | (hs1', env1, None) =>
      let '(hs2', env2, thrown) :=
        HandleLeaveFrom hk owningThread succeeded (index + length hs1) hs2
          env1 in
      (hs1' ++ hs2', env2, thrown)
  end.
Proof.
  induction hs1 as [|h hs1 IH]; intros index env.
  - cbn [app HandleLeaveFrom length]. rewrite Nat.add_0_r.
    now destruct (HandleLeaveFrom _ _ _ _ _ _) as [[? ?] ?].
  - cbn [app HandleLeaveFrom length].
    destruct (HandleLeaveBody _ _ _ _ _ _) as [[h' env'] [what|]];
      [reflexivity|].
    rewrite IH. rewrite Nat.add_succ_r. cbn [Nat.add].
    destruct (HandleLeaveFrom hk owningThread succeeded (S index) hs1 env')
      as [[hs1' env1] [what|]]; [reflexivity|].
    now destruct (HandleLeaveFrom _ _ _ _ hs2 _) as [[? ?] ?].
Qed.

(** X9. The leave pass stops at the first handler that fails: one without
    an entry for the thread ([unordered_map::at] throws, nothing is
    called for it), or one whose leave callback throws (its entry stays,
    flag set).  The handlers registered after it are not left: they are
    not called and keep their entries.  The thread is idle afterwards, and
    the exception is queued with " (in SendAnimationEventLeave)"
    appended. *)
Theorem Leave_stops_at_failure (hk : Hook) (owningThread : N)
  (succeeded : bool) (env : Env World) (hs1 hs2 : list Handler)
  (h : Handler) (hs1' : list Handler) (env1 : Env World) (h' : Handler)
  (env2 : Env World) (what : string) :
  fireAndForget hk = false ->
  owningThread ∈ inProgressThreads hk ->
  handlers hk = hs1 ++ h :: hs2 ->
  let hkL := setInProgress hk (inProgressThreads hk ∖ {[owningThread]}) in
  HandleLeaveFrom hkL owningThread succeeded 0 hs1 (PoolPush env)
    = (hs1', env1, None) ->
  HandleLeaveBody hkL owningThread succeeded (length hs1) h env1
    = (h', env2, Some what) ->
  Leave hk owningThread succeeded env =
  (setHandlers hkL (hs1' ++ h' :: hs2),
   AddTask (TaskThrow (what +:+ " (in SendAnimationEventLeave)")) env2) /\
  (perThread h !! owningThread = None ->
   what = out_of_range_what /\ h' = h /\ env2 = env1) /\
  (forall pt, perThread h !! owningThread = Some pt ->
     matchesCondition pt = true /\
     exists pt' e,
       perThread h' !! owningThread = Some pt' /\
       matchesCondition pt' = true /\
       callLog env2 = callLog env1 ++ [e] /\
       r_thrown (ev_result e) = Some what).
Proof.
  intros Hff Hin Hhs hkL H1 Hbody.
  pose proof (Leave_inProgress hk owningThread succeeded env Hff Hin) as HL.
  cbv zeta in HL. fold hkL in HL. rewrite Hhs in HL.
  rewrite HandleLeaveFrom_app, H1 in HL.
  cbn [HandleLeaveFrom Nat.add] in HL. rewrite Hbody in HL.
  split; [exact HL|]. clear HL.
  unfold HandleLeaveBody in Hbody.
  destruct (perThread h !! owningThread) as [pt|] eqn:Hpt.
  - split; [discriminate|]. intros pt0 [= <-].
    destruct (matchesCondition pt) eqn:Hflag; cbn [negb] in Hbody;
      [|discriminate].
    split; [reflexivity|].
    destruct (PrepareContext_frame pt env1) as (_ & _ & _ & Hl).
    destruct (PrepareContext pt env1) as [p envP]. cbn [snd] in Hl.
    unfold Call in Hbody.
    destruct (r_thrown _) as [w|] eqn:Hthrown; [|discriminate].
    injection Hbody as <- <- <-.
    eexists _, _. split; [cbn; apply lookup_insert_eq|].
    split; [reflexivity|]. cbn [callLog]. rewrite Hl.
    split; [reflexivity|]. exact Hthrown.
  - injection Hbody as <- <- <-. split; [now intros _|discriminate].
Qed.







End Failures.

(** ** Per-thread entries that stay *)

Section Leftovers.
Context {E : ScriptEngine}.

(** X11. The entries of the papyrus hook are never removed.  When the
    queued task has run [HandleEnter] for a thread without exception,
    every handler holds an entry for that thread, and [Leave], which does
    nothing on this hook, leaves hook and environment as they are. *)
Theorem papyrus_entries_persist (hk : Hook) (owningThread : N) (selfId : Z)
  (s : string) (env : Env World) (hk1 : Hook) (env1 : Env World) :
  fireAndForget hk = true ->
  RunTask hk (TaskHandleEnter owningThread selfId s) env
    = (hk1, env1, None) ->
  (forall h1, h1 ∈ handlers hk1 -> is_Some (perThread h1 !! owningThread)) /\
  (forall succeeded env',
     Leave hk1 owningThread succeeded env' = (hk1, env')) /\
  inProgressThreads hk1 = inProgressThreads hk.
Proof.
  intros Hff. unfold RunTask, HandleEnter.
  destruct (HandleEnterFrom hk owningThread selfId 0 (handlers hk) s env)
    as [[[hs n] e] thr] eqn:Hpass.
  intros [= <- <- ->].
  apply HandleEnterFrom_spec in Hpass
    as (evs & _ & _ & _ & _ & Hlen & _ & _ & Hent).
  split; [|split; [|reflexivity]].
  - intros h1 Hin. cbn [handlers setHandlers] in Hin.
    apply list_elem_of_lookup in Hin as [i Hi].
    destruct (lookup_lt_is_Some_2 (handlers hk) i) as [h Hh].
    { rewrite <- Hlen. now apply lookup_lt_Some in Hi. }
    destruct (Hent eq_refl i h h1 Hh Hi) as (_ & _ & _ & _ & pt & Hpt & _).
    now exists pt.
  - intros succeeded env'. unfold Leave.
    change (fireAndForget (setHandlers hk hs)) with (fireAndForget hk).
    now rewrite Hff.
Qed.

(** X12. [PrepareContext] is idempotent and allocates only what is
    missing: on what it returned it allocates nothing and returns the same
    two objects; on a new entry it allocates exactly two objects, the
    context and the storage, and the context holds the storage under
    ["storage"] and nothing else; it never touches the world, the queue or
    the call log. *)
Theorem PrepareContext_idempotent (pt : PerThread) (env : Env World)
  (flag : bool) :
  PrepareContext (store (PrepareContext pt env).1 flag)
    (PrepareContext pt env).2 = PrepareContext pt env /\
  (context pt = None -> storage pt = None ->
   obj_id (p_context (PrepareContext pt env).1) = nextObjectId env /\
   map_id (p_storage (PrepareContext pt env).1)
     = N.succ (nextObjectId env) /\
   props (p_context (PrepareContext pt env).1)
     = {["storage" := JsObjectRef (N.succ (nextObjectId env))]} /\
   entries (p_storage (PrepareContext pt env).1) = [] /\
   nextObjectId (PrepareContext pt env).2
     = N.succ (N.succ (nextObjectId env))) /\
  (forall c m, context pt = Some c -> storage pt = Some m ->
     PrepareContext pt env = (mkPrepared c m, env)) /\
  world (PrepareContext pt env).2 = world env /\
  taskQueue (PrepareContext pt env).2 = taskQueue env /\
  callLog (PrepareContext pt env).2 = callLog env.
Proof.
  destruct (PrepareContext_frame pt env) as (Hw & Hq & _ & Hl).
  split; [|split; [|split; [|now repeat split]]].
  - unfold PrepareContext, store.
    destruct (context pt), (storage pt); reflexivity.
  - intros Hc Hs. unfold PrepareContext. rewrite Hc, Hs. cbn.
    repeat split.
  - intros c m Hc Hs. unfold PrepareContext. now rewrite Hc, Hs.
Qed.

(** X13. An entry that was left behind is used again: when the thread
    enters and the handler matches, no object is allocated; the enter
    callback is called on the old context, with the properties that
    earlier callbacks left on it apart from the id and the event name, and
    on the old storage, emptied. *)
Theorem leftover_entry_reused (hk : Hook) (owningThread : N) (selfId : Z)
  (index : nat) (h : Handler) (eventName : string) (env : Env World)
  (pt : PerThread) (c : JsObject) (m : JsMap)
  (h' : Handler) (eventName' : string) (env' : Env World)
  (thrown : option string) :
  perThread h !! owningThread = Some pt ->
  context pt = Some c -> storage pt = Some m ->
  Matches h selfId eventName = true ->
  HandleEnterBody hk owningThread selfId index h eventName env
    = (h', eventName', env', thrown) ->
  nextObjectId env' = nextObjectId env /\
  exists e,
    callLog env' = callLog env ++ [e] /\
    ev_entries e = [] /\
    ev_props e =
      <[eventNameVariableName hk := JsString eventName]>
        (<["selfId" := JsNumber (double_of_uint32 selfId)]> (props c)) /\
    perThread h' !! owningThread =
      Some (mkPerThread
              (Some (mkJsMap (map_id m) (r_entries (ev_result e))))
              (Some (mkJsObject (obj_id c) (r_props (ev_result e)))) true).
Proof.
  intros Hpt Hc Hs Hm.
  rewrite (HandleEnterBody_matched hk owningThread selfId index h eventName
             env Hm).
  cbv zeta. rewrite Hpt. cbn [from_option id].
  assert (PrepareContext pt env = (mkPrepared c m, env)) as ->
    by (unfold PrepareContext; now rewrite Hc, Hs).
  cbn [fst snd]. intros [= <- _ <- _]. split; [reflexivity|].
  eexists. split; [reflexivity|]. split; [reflexivity|].
  split; [reflexivity|]. cbn. apply lookup_insert_eq.
Qed.

End Leftovers.

(** ** Registration *)

(** X14. [add] fails only on a pattern string that [Parse] rejects, with
    the exception of [Parse]; it checks neither the handler object nor the
    types of the bounds.  When it succeeds it appends one handler with no
    per-thread entries after the handlers already registered, takes the
    callbacks from the object (Undefined when missing) and the bounds from
    the arguments that are numbers, and leaves the rest of the hook as it
    is. *)
Theorem add_appends (hookInfo : Hook) (handlerObj : gmap string JsValue)
  (arg2 arg3 arg4 : JsValue) :
  (forall what,
     add hookInfo handlerObj arg2 arg3 arg4 = Throw what <->
     exists s, arg4 = JsString s /\ Parse s = Throw what) /\
  (forall hk',
     add hookInfo handlerObj arg2 arg3 arg4 = Ok hk' ->
     exists h,
       handlers hk' = handlers hookInfo ++ [h] /\
       perThread h = ∅ /\
       enter h = default JsUndefined (handlerObj !! "enter") /\
       leave h = default JsUndefined (handlerObj !! "leave") /\
       minSelfId h = match arg2 with JsNumber d => Some d | _ => None end /\
       maxSelfId h = match arg3 with JsNumber d => Some d | _ => None end /\
       (forall s, arg4 = JsString s ->
          exists p, Parse s = Ok p /\ pattern h = Some p) /\
       (GetType arg4 <> TyString -> pattern h = None) /\
       hookName hk' = hookName hookInfo /\
       eventNameVariableName hk' = eventNameVariableName hookInfo /\
       succeededVariableName hk' = succeededVariableName hookInfo /\
       inProgressThreads hk' = inProgressThreads hookInfo).
Proof.
  split.
  - intros what. unfold add. split.
    + destruct arg4 as [| | | |s| |]; try discriminate.
      destruct (Parse s) as [p|w] eqn:Hp; [discriminate|].
      intros [= <-]. now exists s.
    + intros (s & -> & Hp). now rewrite Hp.
  - intros hk'. unfold add.
    destruct arg4 as [| | | |s| |];
      try (intros [= <-]; eexists; repeat split; try discriminate;
           now intros _);
    destruct (Parse s) as [p|w] eqn:Hp; [|discriminate].
    intros [= <-]. eexists. repeat split.
    + intros s0 [= <-]. now exists p.
    + intros Hty. now contradiction Hty.
Qed.

(** ** The two hooks over a session *)

Section Session.
Context {E : ScriptEngine}.

Lemma RunActions_hooks (acts : list Action) :
  forall (g g' : EventsGlobalState) (thrown : option string),
  RunActions acts g = (g', thrown) ->
  sendAnimationEvent g' = sendAnimationEvent g /\
  sendPapyrusEvent g' = sendPapyrusEvent g.
Proof.
  induction acts as [|a acts IH]; intros g g' thrown; cbn [RunActions].
  - intros [= <- _]. now split.
  - destruct a as [n cb|n cb|what].
    + unfold On. intros Hrun.
      remember (AddCallback n cb false g) as r eqn:Hadd.
      destruct r as [g1|what].
      2:{ injection Hrun as <- _. split; reflexivity. }
      symmetry in Hadd. apply AddCallback_Ok in Hadd as [_ ->].
      apply IH in Hrun. exact Hrun.
    + unfold Once. intros Hrun.
      remember (AddCallback n cb true g) as r eqn:Hadd.
      destruct r as [g1|what].
      2:{ injection Hrun as <- _. split; reflexivity. }
      symmetry in Hadd. apply AddCallback_Ok in Hadd as [_ ->].
      apply IH in Hrun. exact Hrun.
    + intros [= <- _]. now split.
Qed.

Lemma CallEach_hooks (arguments : list JsValue) (snapshot : list JsValue) :
  forall (g : EventsGlobalState) (js : Script World)
    (g' : EventsGlobalState) (js' : Script World) (thrown : option string),
  CallEach snapshot arguments g js = (g', js', thrown) ->
  sendAnimationEvent g' = sendAnimationEvent g /\
  sendPapyrusEvent g' = sendPapyrusEvent g.
Proof.
  induction snapshot as [|f rest IH]; intros g js g' js' thrown;
    cbn [CallEach].
  - intros [= <- _ _]. now split.
  - unfold CallOne.
    destruct (CallCallback f arguments (script_world js)) as [acts w].
    destruct (RunActions acts g) as [g1 [what|]] eqn:Hrun;
      apply RunActions_hooks in Hrun as [Ha Hp].
    + intros [= <- _ _]. now split.
    + intros Hrest. apply IH in Hrest as [Ha' Hp']. split; congruence.
Qed.

Lemma SendEvent_hooks (eventName : string) (arguments : list JsValue)
  (g : EventsGlobalState) (js : Script World)
  (g' : EventsGlobalState) (js' : Script World) (thrown : option string) :
  SendEvent eventName arguments g js = (g', js', thrown) ->
  sendAnimationEvent g' = sendAnimationEvent g /\
  sendPapyrusEvent g' = sendPapyrusEvent g.
Proof.
  unfold SendEvent, CallCalbacks.
  destruct (CallEach (default [] (callbacks g !! eventName)) arguments g js)
    as [[g1 js1] [what|]] eqn:HP;
    apply CallEach_hooks in HP as [Ha Hp].
  - intros [= <- _ _]. now split.
  - intros HO. apply CallEach_hooks in HO as [Ha' Hp'].
    cbn [sendAnimationEvent sendPapyrusEvent] in Ha', Hp'.
    split; congruence.
Qed.

Lemma Session_hooksAsConstructed (g : EventsGlobalState) :
  SessionReachable g -> hooksAsConstructed g.
Proof.
  induction 1 as
    [ | g n cb o g' _ IH Hadd
      | g n args js g' js' thr _ IH Hsend
      | g _ _
      | g ref obj a2 a3 a4 g' _ IH Hadd
      | g t id n env g' n' env' _ IH Hcall
      | g t b env g' env' _ IH Hcall
      | g t id n env g' n' env' _ IH Hcall
      | g t env g' env' _ IH Hcall
      | g task env hk env' thr _ IH Hrun ].
  - now repeat split.
  - apply AddCallback_Ok in Hadd as [_ ->]. now destruct o.
  - apply SendEvent_hooks in Hsend as [Ha Hp].
    unfold hooksAsConstructed. now rewrite Ha, Hp.
  - now repeat split.
  - unfold hooksAdd, add in Hadd.
    destruct (match a4 with JsString s => _ | _ => _ end) as [pat|w];
      [|discriminate].
    injection Hadd as <-.
    destruct IH as (H1 & H2 & H3 & H4 & H5 & H6 & H7).
    now destruct ref.
  - unfold SendAnimationEventEnter in Hcall.
    destruct (Enter _ _ _ _ _) as [[hk n1] env1] eqn:HE.
    injection Hcall as <- _ _.
    apply Enter_keeps in HE as (Hn & Hv & Hs & _).
    destruct IH as (H1 & H2 & H3 & H4 & H5 & H6 & H7).
    unfold hooksAsConstructed. cbn [sendAnimationEvent sendPapyrusEvent
      setAnimation]. rewrite Hn, Hv, Hs. now repeat split.
  - unfold SendAnimationEventLeave in Hcall.
    destruct (Leave _ _ _ _) as [hk env1] eqn:HL.
    injection Hcall as <- _.
    apply Leave_keeps in HL as (Hn & Hv & Hs & _).
    destruct IH as (H1 & H2 & H3 & H4 & H5 & H6 & H7).
    unfold hooksAsConstructed. cbn [sendAnimationEvent sendPapyrusEvent
      setAnimation]. rewrite Hn, Hv, Hs. now repeat split.
  - unfold SendPapyrusEventEnter, Enter, fireAndForget in Hcall.
    destruct IH as (H1 & H2 & H3 & H4 & H5 & H6 & H7).
    rewrite H4 in Hcall. cbn [String.eqb Ascii.eqb Bool.eqb] in Hcall.
    destruct (existsb _ _); injection Hcall as <- _ _; now repeat split.
  - unfold SendPapyrusEventLeave, Leave, fireAndForget in Hcall.
    destruct IH as (H1 & H2 & H3 & H4 & H5 & H6 & H7).
    rewrite H4 in Hcall. cbn [String.eqb Ascii.eqb Bool.eqb] in Hcall.
    injection Hcall as <- _. now repeat split.
  - destruct IH as (H1 & H2 & H3 & H4 & H5 & H6 & H7).
    destruct task as [what|t id s]; cbn [RunTask] in Hrun.
    + injection Hrun as <- _ _. now repeat split.
    + destruct (HandleEnter _ _ _ _ _) as [[[hk1 n1] env1] thr1] eqn:HE.
      injection Hrun as <- _ _.
      apply HandleEnter_frame in HE as (Hn & Hv & Hs & Hp).
      unfold hooksAsConstructed. cbn [sendAnimationEvent sendPapyrusEvent
        setPapyrus]. rewrite Hn, Hv, Hs, Hp. now repeat split.
Qed.

(** X15. Over a whole session (registrations, dispatches, hook calls from
    any thread, the papyrus tasks run by the queue, [Clear]) the two hooks
    stay the ones that were constructed: the animation hook is the
    blocking one and exposes "animEventName" and "animationSucceeded", the
    papyrus hook is the fire-and-forget one and never has a thread in
    progress; and [GetHooks] has exactly the two properties
    "sendAnimationEvent" and "sendPapyrusEvent", each leading to its own
    hook. *)
Theorem session_hooks_invariant (g : EventsGlobalState) :
  SessionReachable g ->
  hooksAsConstructed g /\
  fireAndForget (sendAnimationEvent g) = false /\
  fireAndForget (sendPapyrusEvent g) = true /\
  GetHooks g !! "sendAnimationEvent" = Some AnimationRef /\
  GetHooks g !! "sendPapyrusEvent" = Some PapyrusRef /\
  (forall name,
     name <> "sendAnimationEvent" -> name <> "sendPapyrusEvent" ->
     GetHooks g !! name = None).
Proof.
  intros H. apply Session_hooksAsConstructed in H.
  split; [exact H|].
  destruct H as (H1 & _ & _ & H4 & _).
  unfold fireAndForget, GetHooks, GetName. rewrite H1, H4.
  split; [reflexivity|]. split; [reflexivity|].
  split; [rewrite lookup_insert_ne by discriminate; apply lookup_insert_eq|].
  split; [apply lookup_insert_eq|].
  intros name Ha Hp.
  rewrite !lookup_insert_ne by congruence. apply lookup_empty.
Qed.

(** X16. What the papyrus call sites can rely on, in every state of a
    session: [SendPapyrusEventLeave] changes nothing at all, and
    [SendPapyrusEventEnter] returns the event name it was given, leaves
    [g] as it is, makes no round trip to the script thread and calls no
    handler; all it may do is queue one task carrying the thread, the id
    and a copy of the name. *)
Theorem papyrus_call_sites (g : EventsGlobalState) (owningThread : N)
  (selfId : Z) (eventName : string) (env : Env World) :
  SessionReachable g ->
  SendPapyrusEventLeave g owningThread env = (g, env) /\
  (SendPapyrusEventEnter g owningThread selfId eventName env
     = (g, eventName, env) \/
   SendPapyrusEventEnter g owningThread selfId eventName env
     = (g, eventName,
        mkEnv (world env) (nextObjectId env)
          (taskQueue env ++ [TaskHandleEnter owningThread selfId eventName])
          (poolPushes env) (callLog env))).
Proof.
  intros H. apply Session_hooksAsConstructed in H.
  destruct H as (_ & _ & _ & H4 & _).
  unfold SendPapyrusEventLeave, SendPapyrusEventEnter, Leave, Enter,
    fireAndForget.
  rewrite H4. cbn [String.eqb Ascii.eqb Bool.eqb].
  destruct g as [cbs once anim pap].
  cbn [sendPapyrusEvent setPapyrus callbacks callbacksOnce
       sendAnimationEvent].
  split; [reflexivity|].
  destruct (existsb _ _); [right | left]; reflexivity.
Qed.

End Session.

(** ** Subscriptions *)

Section Subscriptions.
Context {E : ScriptEngine}.

(** X17. [AddCallback] accepts exactly the names of [events].  For such a
    name it appends the callback at the end of the list of that name in
    the map it was asked for, creating the list if needed, and changes
    nothing else: not the other lists, not the other map, not the hooks.
    For any other name it throws [InvalidArgumentException("eventName",
    name)] and registers nothing. *)
Theorem AddCallback_accepts_events (eventName : string) (callback : JsValue)
  (isOnce : bool) (g : EventsGlobalState) :
  (eventName ∈ events ->
   exists g',
     AddCallback eventName callback isOnce g = Ok g' /\
     (if isOnce then callbacksOnce g' else callbacks g') !! eventName
       = Some (default []
                 ((if isOnce then callbacksOnce g else callbacks g)
                    !! eventName) ++ [callback]) /\
     (forall other, other <> eventName ->
        callbacks g' !! other = callbacks g !! other /\
        callbacksOnce g' !! other = callbacksOnce g !! other) /\
     (if isOnce then callbacks g' = callbacks g
      else callbacksOnce g' = callbacksOnce g) /\
     sendAnimationEvent g' = sendAnimationEvent g /\
     sendPapyrusEvent g' = sendPapyrusEvent g) /\
  (eventName ∉ events ->
   AddCallback eventName callback isOnce g
     = Throw (InvalidArgumentException_what "eventName" eventName)).
Proof.
  unfold AddCallback. split; intros Hin.
  - rewrite bool_decide_eq_true_2 by assumption. cbn [negb].
    destruct isOnce; eexists; (split; [reflexivity|]);
      cbn [callbacks callbacksOnce sendAnimationEvent sendPapyrusEvent];
      (split; [apply push_back_same|]);
      (split; [|now repeat split]);
      intros other Hne; rewrite ?push_back_other by assumption; now split.
  - now rewrite bool_decide_eq_false_2 by assumption.
Qed.

Lemma prefix_push_back (m : Callbacks) (eventName other : string)
  (callback : JsValue) :
  default [] (m !! other) `prefix_of`
  default [] (push_back m eventName callback !! other).
Proof.
  destruct (decide (other = eventName)) as [->|Hne].
  - rewrite push_back_same. cbn. now apply prefix_app_r.
  - now rewrite push_back_other.
Qed.

(** While a callback runs, lists only grow at the end. *)
Lemma RunActions_grows (acts : list Action) :
  forall (g g' : EventsGlobalState) (thrown : option string),
  RunActions acts g = (g', thrown) ->
  forall n,
    default [] (callbacks g !! n) `prefix_of` default [] (callbacks g' !! n)
    /\
    default [] (callbacksOnce g !! n) `prefix_of`
    default [] (callbacksOnce g' !! n).
Proof.
  induction acts as [|a acts IH]; intros g g' thrown; cbn [RunActions].
  - intros [= <- _] n. now split.
  - destruct a as [name cb|name cb|what].
    + unfold On. intros Hrun n.
      remember (AddCallback name cb false g) as r eqn:Hadd.
      destruct r as [g1|what].
      2:{ injection Hrun as <- _. split; reflexivity. }
      symmetry in Hadd. apply AddCallback_Ok in Hadd as [_ ->].
      destruct (IH _ _ _ Hrun n) as [H1 H2].
      cbn [callbacks callbacksOnce] in H1, H2. split; [|exact H2].
      etransitivity; [apply (prefix_push_back _ name n cb) | exact H1].
    + unfold Once. intros Hrun n.
      remember (AddCallback name cb true g) as r eqn:Hadd.
      destruct r as [g1|what].
      2:{ injection Hrun as <- _. split; reflexivity. }
      symmetry in Hadd. apply AddCallback_Ok in Hadd as [_ ->].
      destruct (IH _ _ _ Hrun n) as [H1 H2].
      cbn [callbacks callbacksOnce] in H1, H2. split; [exact H1|].
      etransitivity; [apply (prefix_push_back _ name n cb) | exact H2].
    + intros [= <- _] n. now split.
Qed.

Lemma CallEach_grows (arguments : list JsValue) (snapshot : list JsValue) :
  forall (g : EventsGlobalState) (js : Script World)
    (g' : EventsGlobalState) (js' : Script World) (thrown : option string),
  CallEach snapshot arguments g js = (g', js', thrown) ->
  forall n,
    default [] (callbacks g !! n) `prefix_of` default [] (callbacks g' !! n)
    /\
    default [] (callbacksOnce g !! n) `prefix_of`
    default [] (callbacksOnce g' !! n).
Proof.
  induction snapshot as [|f rest IH]; intros g js g' js' thrown;
    cbn [CallEach].
  - intros [= <- _ _] n. now split.
  - unfold CallOne.
    destruct (CallCallback f arguments (script_world js)) as [acts w].
    destruct (RunActions acts g) as [g1 [what|]] eqn:Hrun;
      pose proof (RunActions_grows _ _ _ _ Hrun) as Hg.
    + intros [= <- _ _]. exact Hg.
    + intros Hrest n. destruct (Hg n) as [H1 H2].
      destruct (IH _ _ _ _ _ Hrest n) as [H3 H4].
      split; etransitivity; eassumption.
Qed.

(** X18. Dispatch never unsubscribes a persistent callback, and touches
    no one-shot list but that of the name sent: after [SendEvent], however
    it ended, every persistent list, and every one-shot list of another
    name, is what it was, possibly with callbacks appended. *)
Theorem SendEvent_keeps_subscriptions (eventName : string)
  (arguments : list JsValue) (g : EventsGlobalState) (js : Script World)
  (g' : EventsGlobalState) (js' : Script World) (thrown : option string) :
  SendEvent eventName arguments g js = (g', js', thrown) ->
  (forall n,
     default [] (callbacks g !! n) `prefix_of`
     default [] (callbacks g' !! n)) /\
  (forall n, n <> eventName ->
     default [] (callbacksOnce g !! n) `prefix_of`
     default [] (callbacksOnce g' !! n)).
Proof.
  unfold SendEvent, CallCalbacks.
  destruct (CallEach (default [] (callbacks g !! eventName)) arguments g js)
    as [[g1 js1] [what|]] eqn:HP;
    pose proof (CallEach_grows _ _ _ _ _ _ _ HP) as HgP.
  - intros [= <- _ _]. split; intros n; [|intros _]; apply HgP.
  - intros HO. pose proof (CallEach_grows _ _ _ _ _ _ _ HO) as HgO.
    cbn [callbacks callbacksOnce] in HgO. split.
    + intros n. destruct (HgP n) as [H1 _], (HgO n) as [H2 _].
      etransitivity; eassumption.
    + intros n Hne. destruct (HgP n) as [_ H1], (HgO n) as [_ H2].
      rewrite lookup_insert_ne in H2 by congruence.
      etransitivity; eassumption.
Qed.

(** X19. When a persistent callback throws, the dispatch ends there: the
    exception leaves [SendEvent], no one-shot callback is called, and the
    one-shot list of the name is not emptied; its callbacks wait for the
    next [SendEvent]. *)
Theorem persistent_throw_spares_oneShot (eventName : string)
  (arguments : list JsValue) (g : EventsGlobalState) (js : Script World)
  (g1 : EventsGlobalState) (js1 : Script World) (what : string) :
  CallCalbacks eventName arguments false g js = (g1, js1, Some what) ->
  SendEvent eventName arguments g js = (g1, js1, Some what) /\
  default [] (callbacksOnce g !! eventName) `prefix_of`
  default [] (callbacksOnce g1 !! eventName) /\
  exists invs,
    invocations js1 = invocations js ++ invs /\
    (inv_callee <$> invs) `prefix_of` default [] (callbacks g !! eventName).
Proof.
  intros HP. unfold SendEvent. rewrite HP. split; [reflexivity|].
  unfold CallCalbacks in HP.
  split; [apply (CallEach_grows _ _ _ _ _ _ _ HP)|].
  apply CallEach_spec in HP as (invs & Hlog & Hpre & _).
  now exists invs.
Qed.

(** Callbacks that register nothing and do not throw are called one
    after the other, and leave the registry as it is. *)
Lemma CallEach_idle_prefix (arguments : list JsValue)
  (g : EventsGlobalState) (l rest : list JsValue) :
  (forall f, f ∈ l -> forall w, (CallCallback f arguments w).1 = []) ->
  forall js,
  exists js1,
    CallEach (l ++ rest) arguments g js = CallEach rest arguments g js1 /\
    inv_callee <$> invocations js1 = (inv_callee <$> invocations js) ++ l.
Proof.
  induction l as [|f l IH]; intros Hidle js.
  - exists js. now rewrite app_nil_r.
  - cbn [app CallEach]. unfold CallOne.
    pose proof (Hidle f ltac:(left) (script_world js)) as Hf.
    destruct (CallCallback f arguments (script_world js)) as [acts w].
    cbn [fst] in Hf. subst acts. cbn [RunActions].
    destruct (IH (fun x Hx => Hidle x ltac:(now right))
                (mkScript w
                   (invocations js ++
                    [mkInvocation f arguments (callbacks g)
                       (callbacksOnce g)])))
      as (js1 & Heach & Hlog).
    exists js1. split; [exact Heach|].
    rewrite Hlog. cbn [invocations]. rewrite fmap_app. cbn.
    now rewrite <- app_assoc.
Qed.

(** X20. When a one-shot callback throws, the one-shot callbacks after it
    are lost: they were taken off the live list before the first call,
    they are not called, and nothing puts them back.  Here the callbacks
    before the thrower register nothing. *)
Theorem oneShot_throw_drops_rest (eventName : string)
  (arguments : list JsValue) (g : EventsGlobalState) (js : Script World)
  (l1 l2 : list JsValue) (f : JsValue) (what : string) :
  default [] (callbacks g !! eventName) = [] ->
  callbacksOnce g !! eventName = Some (l1 ++ f :: l2) ->
  (forall x, x ∈ l1 -> forall w, (CallCallback x arguments w).1 = []) ->
  (forall w, (CallCallback f arguments w).1 = [ActThrow what]) ->
  exists js',
    SendEvent eventName arguments g js
      = (clearedOnce g eventName, js', Some what) /\
    inv_callee <$> invocations js'
      = (inv_callee <$> invocations js) ++ l1 ++ [f] /\
    silent (clearedOnce g eventName) eventName.
Proof.
  intros HP HO Hidle Hthrow. unfold SendEvent, CallCalbacks.
  rewrite HP. cbn [CallEach callbacks callbacksOnce].
  rewrite HO. cbn [from_option id].
  fold (clearedOnce g eventName).
  destruct (CallEach_idle_prefix arguments (clearedOnce g eventName) l1
              (f :: l2) Hidle js) as (js1 & -> & Hlog).
  cbn [CallEach]. unfold CallOne.
  pose proof (Hthrow (script_world js1)) as Hf.
  destruct (CallCallback f arguments (script_world js1)) as [acts w].
  cbn [fst] in Hf. subst acts. cbn [RunActions].
  eexists. split; [reflexivity|]. split.
  - cbn [invocations]. rewrite fmap_app, Hlog. cbn.
    now rewrite <- app_assoc.
  - split; [exact HP|]. cbn [callbacksOnce clearedOnce].
    now rewrite lookup_insert_eq.
Qed.

(** X21. With callbacks that register nothing and do not throw, a
    [SendEvent] calls the persistent callbacks of the name and then its
    one-shot callbacks, in registration order, and the next [SendEvent] of
    that name calls the persistent callbacks again and no one-shot
    callback: each one-shot callback ran once. *)
Theorem oneShot_once_persistent_again (eventName : string)
  (arguments : list JsValue) (g : EventsGlobalState) (js : Script World) :
  (forall f,
     f ∈ default [] (callbacks g !! eventName) ++
         default [] (callbacksOnce g !! eventName) ->
     forall w, (CallCallback f arguments w).1 = []) ->
  exists js1 js2,
    SendEvent eventName arguments g js
      = (clearedOnce g eventName, js1, None) /\
    inv_callee <$> invocations js1
      = (inv_callee <$> invocations js) ++
        default [] (callbacks g !! eventName) ++
        default [] (callbacksOnce g !! eventName) /\
    SendEvent eventName arguments (clearedOnce g eventName) js1
      = (clearedOnce g eventName, js2, None) /\
    inv_callee <$> invocations js2
      = (inv_callee <$> invocations js1) ++
        default [] (callbacks g !! eventName).
Proof.
  intros Hidle.
  assert (forall f, f ∈ default [] (callbacks g !! eventName) ->
            forall w, (CallCallback f arguments w).1 = []) as HidleP
    by (intros f Hf; apply Hidle, elem_of_app; now left).
  assert (forall f, f ∈ default [] (callbacksOnce g !! eventName) ->
            forall w, (CallCallback f arguments w).1 = []) as HidleO
    by (intros f Hf; apply Hidle, elem_of_app; now right).
  destruct (CallEach_idle_prefix arguments g _ [] HidleP js)
    as (jsP & HeachP & HlogP).
  destruct (CallEach_idle_prefix arguments (clearedOnce g eventName) _ []
              HidleO jsP) as (js1 & HeachO & HlogO).
  destruct (CallEach_idle_prefix arguments (clearedOnce g eventName) _ []
              HidleP js1) as (js2 & HeachP2 & HlogP2).
  rewrite app_nil_r in HeachP, HeachO, HeachP2.
  exists js1, js2. unfold SendEvent, CallCalbacks.
  rewrite HeachP. cbn [CallEach]. fold (clearedOnce g eventName).
  rewrite HeachO. cbn [CallEach].
  split; [reflexivity|].
  split; [rewrite HlogO, HlogP; now rewrite <- app_assoc|].
  cbn [callbacks callbacksOnce clearedOnce].
  rewrite HeachP2. cbn [CallEach]. unfold clearedOnce.
  cbn [callbacks callbacksOnce sendAnimationEvent sendPapyrusEvent].
  rewrite lookup_insert_eq. cbn [from_option id CallEach].
  rewrite insert_insert_eq.
  split; [reflexivity | exact HlogP2].
Qed.

(** X22. [Clear] forgets the threads in progress along with everything
    else: when a thread has entered the animation hook and [Clear] runs
    before it leaves, its [Leave] finds the thread not in progress, calls
    no handler and queues the error report. *)
Theorem Clear_forgets_inProgress (g : EventsGlobalState) (owningThread : N)
  (selfId : Z) (eventName : string) (succeeded : bool) (env : Env World) :
  let entered :=
    SendAnimationEventEnter g owningThread selfId eventName env in
  SendAnimationEventLeave (Clear entered.1.1) owningThread succeeded
    entered.2
  = (Clear entered.1.1,
     mkEnv (world entered.2) (nextObjectId entered.2)
       (taskQueue entered.2 ++
        [TaskThrow
           "'sendAnimationEvent' is not processing (in SendAnimationEventLeave)"])
       (S (poolPushes entered.2)) (callLog entered.2)).
Proof.
  intros entered. unfold SendAnimationEventLeave, Clear, Leave.
  cbn [fireAndForget EventsGlobalState_new sendAnimationEvent Hook_new
       hookName inProgressThreads].
  rewrite bool_decide_eq_false_2 by apply not_elem_of_empty.
  reflexivity.
Qed.

End Subscriptions.

(** ** The further statements on the concrete engine *)

Lemma inProgress_bookkeeping_witness :
  inProgressThreads demoEnterThrow.1.1
    = {[1%N]} ∪ inProgressThreads demoHookThrow /\
  inProgressThreads demoLeaveThrow.1 = inProgressThreads demoHookThrow.
Proof.
  apply (inProgress_bookkeeping (E := demoEngine) demoHookThrow 1 20 "Jump"
           true demoEnv demoEnterThrow.1.1 demoEnterThrow.1.2
           demoEnterThrow.2 demoLeaveThrow.1 demoLeaveThrow.2).
  - reflexivity.
  - apply not_elem_of_empty.
  - vm_compute. reflexivity.
  - vm_compute. reflexivity.
Defined.

Lemma executor_accounting_witness :
  poolPushes demoEnterThrow.2 = S (poolPushes demoEnv) /\
  poolPushes demoLeaveThrow.2 = S (poolPushes demoEnterThrow.2).
Proof.
  split.
  - destruct (proj1 (executor_accounting (E := demoEngine) demoHookThrow 1
                       eq_refl)
                20%Z "Jump" demoEnv demoEnterThrow.1.1 demoEnterThrow.1.2
                demoEnterThrow.2)
      as [H _]; [vm_compute; reflexivity | exact H].
  - assert (fireAndForget demoEnterThrow.1.1 = false) as Hff
      by (vm_compute; reflexivity).
    destruct (proj2 (executor_accounting (E := demoEngine)
                       demoEnterThrow.1.1 1 Hff)
                true demoEnterThrow.2 demoLeaveThrow.1 demoLeaveThrow.2)
      as [H _]; [vm_compute; reflexivity | exact H].
Defined.

Lemma Enter_stops_at_failure_witness :
  taskQueue demoEnterThrow.2
  = [TaskThrow
       "Error: boom (while performing enter on 'sendAnimationEvent')"].
Proof.
  pose (hkP := setInProgress demoHookThrow
                 ({[1%N]} ∪ inProgressThreads demoHookThrow)).
  pose (x := HandleEnterBody (E := demoEngine) hkP 1 20 0 demoHandlerThrow
               "Jump" (PoolPush (E := demoEngine) demoEnv)).
  destruct (Enter_stops_at_failure (E := demoEngine) demoHookThrow 1 20
              "Jump" demoEnv [] [demoHandlerMin5] demoHandlerThrow [] "Jump"
              (PoolPush (E := demoEngine) demoEnv) x.1.1.1 x.1.1.2 x.1.2 x.2
              (default demoEventB (last (callLog x.1.2))) "Error: boom")
    as [_ H].
  - reflexivity.
  - apply not_elem_of_empty.
  - reflexivity.
  - vm_compute. reflexivity.
  - vm_compute. reflexivity.
  - vm_compute. reflexivity.
  - vm_compute. reflexivity.
  - vm_compute. reflexivity.
  - unfold demoEnterThrow. rewrite H. vm_compute. reflexivity.
Defined.

Lemma Leave_stops_at_failure_witness :
  taskQueue demoLeaveThrow.2
  = taskQueue demoEnterThrow.2 ++
    [TaskThrow
       "invalid unordered_map<K, T> key (in SendAnimationEventLeave)"].
Proof.
  pose (hk := demoEnterThrow.1.1).
  pose (hkL := setInProgress hk (inProgressThreads hk ∖ {[1%N]})).
  pose (y := HandleLeaveFrom (E := demoEngine) hkL 1 true 0
               (take 1 (handlers hk))
               (PoolPush (E := demoEngine) demoEnterThrow.2)).
  pose (z := HandleLeaveBody (E := demoEngine) hkL 1 true 1 demoHandlerMin5
               y.1.2).
  destruct (Leave_stops_at_failure (E := demoEngine) hk 1 true
              demoEnterThrow.2 (take 1 (handlers hk)) [] demoHandlerMin5
              y.1.1 y.1.2 z.1.1 z.1.2 "invalid unordered_map<K, T> key")
    as [H _].
  - vm_compute. reflexivity.
  - apply (bool_decide_unpack (1%N ∈ inProgressThreads hk)). vm_compute. exact I.
  - vm_compute. reflexivity.
  - vm_compute. reflexivity.
  - vm_compute. reflexivity.
  - unfold demoLeaveThrow. fold hk. rewrite H. vm_compute. reflexivity.
Defined.


Lemma papyrus_entries_persist_witness :
  (forall h1, h1 ∈ handlers demoPapyrusRun1.1.1 ->
     is_Some (perThread h1 !! 1%N)) /\
  (forall succeeded env',
     Leave (E := demoEngine) demoPapyrusRun1.1.1 1 succeeded env'
       = (demoPapyrusRun1.1.1, env')) /\
  inProgressThreads demoPapyrusRun1.1.1 = inProgressThreads demoHookPapyrus.
Proof.
  apply (papyrus_entries_persist (E := demoEngine) demoHookPapyrus 1 7
           "OnHit" demoEnv demoPapyrusRun1.1.1 demoPapyrusRun1.1.2).
  - reflexivity.
  - vm_compute. reflexivity.
Defined.

Lemma PrepareContext_idempotent_witness :
  nextObjectId (PrepareContext (E := demoEngine) PerThread_default demoEnv).2
  = N.succ (N.succ (nextObjectId demoEnv)).
Proof.
  destruct (PrepareContext_idempotent (E := demoEngine) PerThread_default
              demoEnv true) as (_ & H & _).
  apply H; reflexivity.
Defined.

Lemma leftover_entry_reused_witness :
  nextObjectId
    (HandleEnterBody (E := demoEngine) demoPapyrusRun1.1.1 1 7 0
       (default demoHandlerMin5 (head (handlers demoPapyrusRun1.1.1)))
       "OnHit" demoPapyrusRun1.1.2).1.2
  = nextObjectId demoPapyrusRun1.1.2.
Proof.
  pose (h := default demoHandlerMin5 (head (handlers demoPapyrusRun1.1.1))).
  pose (pt := default PerThread_default (perThread h !! 1%N)).
  pose (c := default (mkJsObject 0 ∅) (context pt)).
  pose (m := default (mkJsMap 0 []) (storage pt)).
  pose (x := HandleEnterBody (E := demoEngine) demoPapyrusRun1.1.1 1 7 0 h
               "OnHit" demoPapyrusRun1.1.2).
  destruct (leftover_entry_reused (E := demoEngine) demoPapyrusRun1.1.1 1 7
              0 h "OnHit" demoPapyrusRun1.1.2 pt c m x.1.1.1 x.1.1.2 x.1.2
              x.2) as [H _].
  - vm_compute. reflexivity.
  - vm_compute. reflexivity.
  - vm_compute. reflexivity.
  - vm_compute. reflexivity.
  - vm_compute. reflexivity.
  - exact H.
Defined.

Lemma add_appends_witness :
  (exists h,
     handlers demoHookStore = handlers demoHookAnimation ++ [h] /\
     perThread h = ∅) /\
  exists s,
    JsString "a*b*" = JsString s /\ Parse s = Throw too_many_stars.
Proof.
  split.
  - destruct (proj2 (add_appends demoHookAnimation demoHandlerObj
                       (JsNumber 5%float) JsUndefined JsUndefined)
                demoHookStore) as (h & H1 & H2 & _).
    + vm_compute. reflexivity.
    + exists h. split; [exact H1 | exact H2].
  - apply (proj1 (add_appends demoHookAnimation demoHandlerObj JsUndefined
                    JsUndefined (JsString "a*b*"))
             too_many_stars).
    vm_compute. reflexivity.
Defined.

Lemma session_hooks_invariant_witness :
  GetHooks demoSession !! "sendPapyrusEvent" = Some PapyrusRef /\
  fireAndForget (sendPapyrusEvent demoSession) = true.
Proof.
  destruct (session_hooks_invariant (E := demoEngine) demoSession)
    as (_ & _ & H1 & _ & H2 & _).
  - apply (Session_add (E := demoEngine) EventsGlobalState_new PapyrusRef
             demoHandlerObj (JsNumber 5%float) JsUndefined JsUndefined
             demoSession Session_new).
    vm_compute. reflexivity.
  - split; [exact H2 | exact H1].
Defined.

Lemma papyrus_call_sites_witness :
  SendPapyrusEventLeave (E := demoEngine) demoSession 1 demoEnv
    = (demoSession, demoEnv) /\
  (SendPapyrusEventEnter (E := demoEngine) demoSession 1 7 "OnHit" demoEnv
     = (demoSession, "OnHit", demoEnv) \/
   SendPapyrusEventEnter (E := demoEngine) demoSession 1 7 "OnHit" demoEnv
     = (demoSession, "OnHit",
        mkEnv (world demoEnv) (nextObjectId demoEnv)
          (taskQueue demoEnv ++ [TaskHandleEnter 1 7 "OnHit"])
          (poolPushes demoEnv) (callLog demoEnv))).
Proof.
  apply (papyrus_call_sites (E := demoEngine) demoSession 1 7 "OnHit"
           demoEnv).
  apply (Session_add (E := demoEngine) EventsGlobalState_new PapyrusRef
           demoHandlerObj (JsNumber 5%float) JsUndefined JsUndefined
           demoSession Session_new).
  vm_compute. reflexivity.
Defined.

Lemma AddCallback_accepts_events_witness :
  (exists g',
     AddCallback (E := demoEngine) "tick" (JsFunctionRef 11) true
       demoRegistry = Ok g' /\
     callbacksOnce g' !! "tick"
       = Some (default [] (callbacksOnce demoRegistry !! "tick") ++
               [JsFunctionRef 11])) /\
  AddCallback (E := demoEngine) "noSuchEvent" (JsFunctionRef 11) true
    demoRegistry
  = Throw (InvalidArgumentException_what (ScriptEngine := demoEngine)
             "eventName" "noSuchEvent").
Proof.
  split.
  - destruct (proj1 (AddCallback_accepts_events (E := demoEngine) "tick"
                       (JsFunctionRef 11) true demoRegistry))
      as (g' & H1 & H2 & _).
    + apply (bool_decide_unpack ("tick" ∈ events)). vm_compute. exact I.
    + exists g'. split; [exact H1 | exact H2].
  - apply (proj2 (AddCallback_accepts_events (E := demoEngine) "noSuchEvent"
                    (JsFunctionRef 11) true demoRegistry)).
    apply (bool_decide_eq_false_1 ("noSuchEvent" ∈ events)).
    vm_compute. reflexivity.
Defined.

Lemma SendEvent_keeps_subscriptions_witness :
  (forall n,
     default [] (callbacks demoRegistry !! n) `prefix_of`
     default [] (callbacks demoSendTick.1.1 !! n)) /\
  (forall n, n <> "tick" ->
     default [] (callbacksOnce demoRegistry !! n) `prefix_of`
     default [] (callbacksOnce demoSendTick.1.1 !! n)).
Proof.
  apply (SendEvent_keeps_subscriptions (E := demoEngine) "tick" []
           demoRegistry demoScript demoSendTick.1.1 demoSendTick.1.2
           demoSendTick.2).
  vm_compute. reflexivity.
Defined.

Lemma persistent_throw_spares_oneShot_witness :
  demoSendThrow
  = ((CallCalbacks (E := demoEngine) "tick" [] false demoRegistryThrow
        demoScript).1,
     Some "Error: boom").
Proof.
  pose (x := CallCalbacks (E := demoEngine) "tick" [] false
               demoRegistryThrow demoScript).
  destruct (persistent_throw_spares_oneShot (E := demoEngine) "tick" []
              demoRegistryThrow demoScript x.1.1 x.1.2 "Error: boom")
    as [H _].
  - vm_compute. reflexivity.
  - unfold demoSendThrow. rewrite H. vm_compute. reflexivity.
Defined.

Lemma oneShot_throw_drops_rest_witness :
  exists js',
    SendEvent (E := demoEngine) "tick" [] demoRegistryDrop demoScript
      = (clearedOnce demoRegistryDrop "tick", js', Some "Error: boom") /\
    inv_callee <$> invocations js'
      = (inv_callee <$> invocations demoScript) ++
        [JsFunctionRef 11] ++ [JsFunctionRef 14] /\
    silent (clearedOnce demoRegistryDrop "tick") "tick".
Proof.
  apply (oneShot_throw_drops_rest (E := demoEngine) "tick" []
           demoRegistryDrop demoScript [JsFunctionRef 11] [JsFunctionRef 13]
           (JsFunctionRef 14) "Error: boom").
  - reflexivity.
  - vm_compute. reflexivity.
  - intros x Hx w. apply list_elem_of_singleton in Hx. rewrite Hx.
    reflexivity.
  - intros w. reflexivity.
Defined.

Lemma oneShot_once_persistent_again_witness :
  exists js1 js2,
    SendEvent (E := demoEngine) "tick" [] demoRegistryIdle demoScript
      = (clearedOnce demoRegistryIdle "tick", js1, None) /\
    inv_callee <$> invocations js1
      = (inv_callee <$> invocations demoScript) ++
        default [] (callbacks demoRegistryIdle !! "tick") ++
        default [] (callbacksOnce demoRegistryIdle !! "tick") /\
    SendEvent (E := demoEngine) "tick" []
      (clearedOnce demoRegistryIdle "tick") js1
      = (clearedOnce demoRegistryIdle "tick", js2, None) /\
    inv_callee <$> invocations js2
      = (inv_callee <$> invocations js1) ++
        default [] (callbacks demoRegistryIdle !! "tick").
Proof.
  apply (oneShot_once_persistent_again (E := demoEngine) "tick" []
           demoRegistryIdle demoScript).
  intros f Hf w.
  assert (default [] (callbacks demoRegistryIdle !! "tick") ++
          default [] (callbacksOnce demoRegistryIdle !! "tick")
          = [JsFunctionRef 11; JsFunctionRef 13]) as Hl
    by (vm_compute; reflexivity).
  rewrite Hl in Hf.
  apply elem_of_cons in Hf as [Hf|Hf]; [rewrite Hf; reflexivity|].
  apply list_elem_of_singleton in Hf. rewrite Hf. reflexivity.
Defined.
